(** * JustIn: adaptive just intonation for MIDI pitches

    A shallow embedding of [justin-min-es2015.js] and the verification of its
    retuning engine.

    Numbers.  JavaScript numbers that the program only ever uses as integers
    (MIDI pitches, velocities, orders) are [Z]; the numbers that carry
    fractions of a semitone ([justPitch], [intensity], the payload of the
    pitch messages) are exact rationals [Q], compared with [==].

    Objects.  [heldNotes] is an array of distinct [Note] objects that the
    program mutates through aliases ([LoNote], [HiNote], [noteArr]); it is a
    [list Note] here, read with [!!] and written back by index with
    [<[i:=n]>], so that a write through an alias is a write into the array.

    Exceptions.  The only runtime failure of the program is the [TypeError]
    of reading a property of [undefined] (an array read out of range); the
    functions that can raise it return [option], [None] being the throw. *)

From Stdlib Require Import ZArith QArith Qminmax List Lia Sorted Permutation.
From stdpp Require Import list numbers.

Open Scope Z_scope.

(** ** Objects *)

(** [function Note(_pitch, _velocity)] *)
Record Note := mkNote {
  equalPitch : Z;
  justPitch : Q;
  order : Z;
  velocity : Z
}.

Definition newNote (_pitch _velocity : Z) : Note :=
  {| equalPitch := _pitch; justPitch := inject_Z _pitch;
     order := -1; velocity := _velocity |}.

(** [function JustObj(equalInterval, justInterval, order)] *)
Module JustObj.
Record t := mk {
  equalInterval : Z;
  justInterval : Q;
  order : Z
}.
End JustObj.

Definition set_justPitch (p : Q) (N : Note) : Note :=
  {| equalPitch := equalPitch N; justPitch := p;
     order := order N; velocity := velocity N |}.

Definition set_order (o : Z) (N : Note) : Note :=
  {| equalPitch := equalPitch N; justPitch := justPitch N;
     order := o; velocity := velocity N |}.

(** ** Limits *)

Definition fiveLimit : list JustObj.t :=
  [ JustObj.mk 0 0 11;
    JustObj.mk 1 1.12 1;
    JustObj.mk 2 2.04 6;
    JustObj.mk 3 3.16 10;
    JustObj.mk 4 3.86 2;
    JustObj.mk 5 4.98 9;
    JustObj.mk 6 5.9 3;
    JustObj.mk 7 7.02 8;
    JustObj.mk 8 8.14 4;
    JustObj.mk 9 8.84 5;
    JustObj.mk 10 9.96 7;
    JustObj.mk 11 10.88 0 ].

Definition sevenLimit : list JustObj.t :=
  [ JustObj.mk 0 0 11;
    JustObj.mk 1 1.12 1;
    JustObj.mk 2 2.04 6;
    JustObj.mk 3 3.16 9;
    JustObj.mk 4 3.86 3;
    JustObj.mk 5 4.98 2;
    JustObj.mk 6 5.9 10;
    JustObj.mk 7 7.02 8;
    JustObj.mk 8 8.14 4;
    JustObj.mk 9 8.84 5;
    JustObj.mk 10 9.69 7;
    JustObj.mk 11 10.88 0 ].

Definition elevenLimit : list JustObj.t :=
  [ JustObj.mk 0 0 11;
    JustObj.mk 1 1.12 1;
    JustObj.mk 2 2.04 9;
    JustObj.mk 3 3.16 3;
    JustObj.mk 4 3.86 2;
    JustObj.mk 5 4.98 6;
    JustObj.mk 6 5.51 10;
    JustObj.mk 7 7.02 8;
    JustObj.mk 8 8.14 4;
    JustObj.mk 9 8.84 5;
    JustObj.mk 10 9.69 7;
    JustObj.mk 11 10.88 0 ].

Definition thirteenLimit : list JustObj.t :=
  [ JustObj.mk 0 0 11;
    JustObj.mk 1 1.12 1;
    JustObj.mk 2 2.04 9;
    JustObj.mk 3 3.16 3;
    JustObj.mk 4 3.86 2;
    JustObj.mk 5 4.98 6;
    JustObj.mk 6 5.51 10;
    JustObj.mk 7 7.02 8;
    JustObj.mk 8 8.40 4;
    JustObj.mk 9 8.84 5;
    JustObj.mk 10 9.69 7;
    JustObj.mk 11 10.88 0 ].

(** ** Output and global variables *)

(** The messages sent through [outlet(0, ...)].  The lists that the source
    joins into one string are kept as lists of numbers. *)
Inductive Msg :=
  | NoteControl (pitch velocity : Z)
  | NoteMessage (pitch : Z) (bend : Q)
  | JustPitches (justList : list Q)
  | EqualPitches (equalList : list Z)
  | OffsetOctave (offsetArr : list Q)
  | OffsetList (offsetArr : list Q)
  | Done.

(** The two texts handed to [postError]. *)
Inductive Err :=
  | TuningNotAvailable   (* 'Tuning not available.\nValid arguments: 5, 7, 11, 13' *)
  | NotValid.            (* 'Not valid.\nValid arguments: 1 or true, 0 or false' *)

(** The global variables, the outlet and the Max console. *)
Record State := mkState {
  intensity : Q;
  meanMode : bool;
  heldNotes : list Note;
  justSystem : list JustObj.t;
  outlet : list Msg;
  console : list Err
}.

Definition set_intensity (v : Q) (st : State) : State :=
  mkState v (meanMode st) (heldNotes st) (justSystem st) (outlet st) (console st).

Definition set_meanMode (b : bool) (st : State) : State :=
  mkState (intensity st) b (heldNotes st) (justSystem st) (outlet st) (console st).

Definition set_heldNotes (l : list Note) (st : State) : State :=
  mkState (intensity st) (meanMode st) l (justSystem st) (outlet st) (console st).

Definition set_justSystem (t : list JustObj.t) (st : State) : State :=
  mkState (intensity st) (meanMode st) (heldNotes st) t (outlet st) (console st).

(** [function output()] *)
Definition output (m : Msg) (st : State) : State :=
  mkState (intensity st) (meanMode st) (heldNotes st) (justSystem st)
          (outlet st ++ [m]) (console st).

(** [function postError(err)] *)
Definition postError (err : Err) (st : State) : State :=
  mkState (intensity st) (meanMode st) (heldNotes st) (justSystem st)
          (outlet st) (console st ++ [err]).

(** ** The retuning engine *)

(** [function resetJustPitches(noteArr)]: the loop writes the two fields of
    every [noteArr[i]] in turn. *)
Definition resetNote (N : Note) : Note :=
  {| equalPitch := equalPitch N; justPitch := inject_Z (equalPitch N);
     order := -1; velocity := velocity N |}.

Definition resetJustPitches (noteArr : list Note) : list Note :=
  map resetNote noteArr.

(** [function sortPitchesAscending(noteArr)]: [Array.prototype.sort] with the
    comparator [a.equalPitch - b.equalPitch], as a stable sort (notes of equal
    pitch keep their relative order); insertion from the right end. *)
Fixpoint insertNote (a : Note) (l : list Note) : list Note :=
  match l with
  | [] => [a]
  | b :: l' =>
      if equalPitch a - equalPitch b <=? 0 then a :: b :: l'
      else b :: insertNote a l'
  end.

Fixpoint sortPitchesAscending (noteArr : list Note) : list Note :=
  match noteArr with
  | [] => []
  | a :: l => insertNote a (sortPitchesAscending l)
  end.

(** [function createInterval(Hi, Lo, interval)], returning the two notes as
    they are after the call. *)
Definition createInterval (Hi Lo : Note) (interval : Q) : Note * Note :=
  if order Hi >? order Lo
  then (Hi, set_justPitch (justPitch Hi - interval)%Q Lo)
  else (set_justPitch (justPitch Lo + interval)%Q Hi, Lo).

(** [function updateOrder(N, order)] *)
Definition updateOrder (N : Note) (order' : Z) : Note :=
  if order' >? order N then set_order order' N else N.

(** [justSystem[interval % 12]]: [%] is the truncating remainder; a negative
    or too large index reads [undefined]. *)
Definition justSystemAt (justSystem : list JustObj.t) (interval : Z)
  : option JustObj.t :=
  if Z.rem interval 12 <? 0 then None
  else justSystem !! Z.to_nat (Z.rem interval 12).

(** The body of the inner loop of [adjustPitches] at the indices [lo], [hi]. *)
Definition adjustPair (justSystem : list JustObj.t) (lo hi : nat)
    (noteArr : list Note) : option (list Note) :=
  LoNote ← noteArr !! lo;
  HiNote ← noteArr !! hi;
  let interval := equalPitch HiNote - equalPitch LoNote in
  IntervalObj ← justSystemAt justSystem interval;
  let intervalIsHigherOrder :=
    (JustObj.order IntervalObj >? order HiNote)
    || (JustObj.order IntervalObj >? order LoNote) in
  if intervalIsHigherOrder then
    let compoundJustInterval :=
      ((JustObj.justInterval IntervalObj - inject_Z (Z.rem interval 12))
       + inject_Z interval)%Q in
    let '(Hi1, Lo1) := createInterval HiNote LoNote compoundJustInterval in
    let Hi2 := updateOrder Hi1 (JustObj.order IntervalObj) in
    let Lo2 := updateOrder Lo1 (JustObj.order IntervalObj) in
    Some (<[hi := Hi2]> (<[lo := Lo2]> noteArr))
  else Some noteArr.

(** [for (i = start; i < stop; i++) body], with bounds fixed before the loop
    and a body that may throw. *)
Fixpoint forSteps {S : Type} (n i : nat) (body : nat → S → option S) (s : S)
  : option S :=
  match n with
  | O => Some s
  | Datatypes.S n' => s' ← body i s; forSteps n' (Datatypes.S i) body s'
  end.

Definition forLoop {S : Type} (start stop : nat) (body : nat → S → option S)
    (s : S) : option S :=
  forSteps (stop - start) start body s.

(** [function adjustPitches(noteArr)] *)
Definition adjustPitches (justSystem : list JustObj.t) (noteArr : list Note)
  : option (list Note) :=
  let numNotes := length noteArr in
  forLoop 0 (numNotes - 1)
    (λ lo, forLoop (lo + 1) numNotes (adjustPair justSystem lo))
    noteArr.

(** [function offsetAllPitches(offset)] *)
Definition offsetAllPitches (offset : Q) (held : list Note) : list Note :=
  map (λ N, set_justPitch (justPitch N + offset)%Q N) held.

(** [function meanAdjust()] *)
Definition meanAdjust (held : list Note) : list Note :=
  let equalTotal := fold_left (λ tot N, tot + equalPitch N) held 0 in
  let justTotal := fold_left (λ tot N, (tot + justPitch N)%Q) held 0%Q in
  let numNotes := length held in
  let meanOffset :=
    ((inject_Z equalTotal - justTotal) / inject_Z (Z.of_nat numNotes))%Q in
  offsetAllPitches meanOffset held.

(** [function fixedJustify()] *)
Definition fixedJustify (st : State) : option State :=
  let st1 := set_heldNotes (resetJustPitches (heldNotes st)) st in
  if (1 <? length (heldNotes st1))%nat then
    let st2 := set_heldNotes (sortPitchesAscending (heldNotes st1)) st1 in
    noteArr ← adjustPitches (justSystem st2) (heldNotes st2);
    let st3 := set_heldNotes noteArr st2 in
    if meanMode st3
    then Some (set_heldNotes (meanAdjust (heldNotes st3)) st3)
    else Some st3
  else Some st1.

(** [function justify()]: [heldNotes[0]] is truthy when the array is not
    empty. *)
Definition justify (st : State) : option State :=
  match heldNotes st with
  | [] => Some st
  | _ :: _ => fixedJustify st
  end.

(** ** Configuration *)

(** [function setLimit(val)] *)
Definition setLimit (val : Z) (st : State) : option State :=
  let st1 :=
    match val with
    | 5 => set_justSystem fiveLimit st
    | 7 => set_justSystem sevenLimit st
    | 11 => set_justSystem elevenLimit st
    | 13 => set_justSystem thirteenLimit st
    | _ => postError TuningNotAvailable st
    end in
  justify st1.

(** The arguments [setMeanMode] is written for, the ones its error message
    names: a Boolean or an integer.  Other JavaScript values (strings,
    arrays, fractions) are not arguments of this model, and nothing below
    speaks of them. *)
Inductive MeanArg :=
  | ArgBool (b : bool)
  | ArgInt (z : Z).

(** [bool == false] and [bool == true]: loose equality turns the Boolean into
    the number 0 or 1. *)
Definition looseEqBool (a : MeanArg) (b : bool) : bool :=
  match a with
  | ArgBool a' => Bool.eqb a' b
  | ArgInt z => z =? (if b then 1 else 0)
  end.

(** [function setMeanMode(bool)] *)
Definition setMeanMode (bool : MeanArg) (st : State) : State :=
  if looseEqBool bool false then set_meanMode false st
  else if looseEqBool bool true then set_meanMode true st
  else postError NotValid st.

(** [Number.prototype.clamp = function (min, max)]:
    [Math.min(Math.max(this, min), max)]. *)
Definition clamp (this min max : Q) : Q := Qmin (Qmax this min) max.

(** ** Output formatter *)

(** [function noteCtrlOut(pitch, velocity)] *)
Definition noteCtrlOut (pitch velocity : Z) (st : State) : State :=
  output (NoteControl pitch velocity) st.

(** [function noteMsgOut(pitch, bend)] *)
Definition noteMsgOut (pitch : Z) (bend : Q) (st : State) : State :=
  output (NoteMessage pitch (bend * intensity st)%Q) st.

(** [function pitchListsOut()] *)
Definition pitchListsOut (st : State) : State :=
  let justList :=
    map (λ N, ((justPitch N - inject_Z (equalPitch N)) * intensity st
               + inject_Z (equalPitch N))%Q) (heldNotes st) in
  let equalList := map equalPitch (heldNotes st) in
  output (EqualPitches equalList) (output (JustPitches justList) st).

(** [offsetArr[N.equalPitch % 12] = v]: a negative remainder names a property
    outside the twelve slots, which [join] does not print. *)
Definition setOctaveSlot (offsetArr : list Q) (pitch : Z) (v : Q) : list Q :=
  if Z.rem pitch 12 <? 0 then offsetArr
  else <[Z.to_nat (Z.rem pitch 12) := v]> offsetArr.

(** [function offsetOctaveOut()] *)
Definition offsetOctaveOut (st : State) : State :=
  let offsetArr :=
    fold_left
      (λ arr N, setOctaveSlot arr (equalPitch N)
                  ((justPitch N - inject_Z (equalPitch N)) * intensity st)%Q)
      (heldNotes st) (replicate 12 0%Q) in
  output (OffsetOctave offsetArr) st.

(** [function offsetListOut()] *)
Definition offsetListOut (st : State) : State :=
  let offsetArr :=
    map (λ N, ((justPitch N - inject_Z (equalPitch N)) * intensity st)%Q)
        (heldNotes st) in
  output (OffsetList offsetArr) st.

(** [function justCompOut()] *)
Definition justCompOut (st : State) : State :=
  offsetListOut (offsetOctaveOut (pitchListsOut st)).

(** [function allNoteMsgOut()] *)
Definition allNoteMsgOut (st : State) : State :=
  justCompOut
    (fold_left
       (λ s obj, noteMsgOut (equalPitch obj)
                   (justPitch obj - inject_Z (equalPitch obj))%Q s)
       (heldNotes st) st).

(** [function setIntensity(val)] *)
Definition setIntensity (val : Q) (st : State) : option State :=
  let st1 := set_intensity val st in
  noteArr ← adjustPitches (justSystem st1) (heldNotes st1);
  Some (allNoteMsgOut (set_heldNotes noteArr st1)).

(** ** Event dispatcher *)

(** [function addNote(pitch, velocity)] *)
Definition addNote (pitch velocity : Z) (held : list Note) : list Note :=
  held ++ [newNote pitch velocity].

(** [function removeNote(n)]: [heldNotes.splice(n, 1)] *)
Definition removeNote (n : nat) (held : list Note) : list Note :=
  delete n held.

(** The note-off loop of [noteHandler],
    [for (i = 0; i < heldNotes.length; i++)]: the bound is read again at every
    turn and [i] advances also after a removal.  [fuel] bounds the number of
    turns. *)
Fixpoint noteOffLoop (fuel : nat) (pitch : Z) (i : nat) (held : list Note)
  : list Note :=
  match fuel with
  | O => held
  | S fuel' =>
      match held !! i with
      | None => held                         (* i >= heldNotes.length *)
      | Some N =>
          if pitch =? equalPitch N
          then noteOffLoop fuel' pitch (S i) (removeNote i held)
          else noteOffLoop fuel' pitch (S i) held
      end
  end.

(** [function noteHandler(pitch, velocity)] *)
Definition noteHandler (pitch velocity : Z) (held : list Note) : list Note :=
  let isNoteOn := velocity >? 0 in
  if isNoteOn then addNote pitch velocity held
  else noteOffLoop (length held) pitch 0 held.

(** [function noteIn(pitch, velocity)] *)
Definition noteIn (pitch velocity : Z) (st : State) : option State :=
  let st1 := noteCtrlOut pitch velocity st in
  let st2 := set_heldNotes (noteHandler pitch velocity (heldNotes st1)) st1 in
  st3 ← justify st2;
  Some (output Done (allNoteMsgOut st3)).

(** [function allNotesOff()] *)
Definition allNotesOff (st : State) : State :=
  set_heldNotes []
    (fold_left (λ s obj, noteCtrlOut (equalPitch obj) 0 s) (heldNotes st) st).

(** [function clearNotes()] *)
Definition clearNotes (st : State) : State := allNotesOff st.

(** [function modCorrect(num)] *)
Definition modCorrect (num : Q) : Q :=
  if Qlt_le_dec 11.5 num then (num - 12)%Q else num.

(** The program as loaded: the initial values of the variables, then the
    top-level call [setLimit(5)]. *)
Definition initialVars : State :=
  {| intensity := 0.75; meanMode := true; heldNotes := [];
     justSystem := []; outlet := []; console := [] |}.

Definition loaded : State :=
  set_justSystem fiveLimit initialVars.

(** Events run one after the other; the first throw ends the run. *)
Inductive Event :=
  | EvNoteIn (pitch velocity : Z)
  | EvSetLimit (val : Z)
  | EvSetMeanMode (bool : MeanArg)
  | EvSetIntensity (val : Q)
  | EvAllNotesOff.

Definition handle (e : Event) (st : State) : option State :=
  match e with
  | EvNoteIn p v => noteIn p v st
  | EvSetLimit val => setLimit val st
  | EvSetMeanMode b => Some (setMeanMode b st)
  | EvSetIntensity v => setIntensity v st
  | EvAllNotesOff => Some (allNotesOff st)
  end.

Fixpoint run (es : list Event) (st : State) : option State :=
  match es with
  | [] => Some st
  | e :: es' => st' ← handle e st; run es' st'
  end.

(** * Vocabulary of the verification *)

(** ** Tables *)

(** The four tables [setLimit] can select. *)
Definition limits : list (list JustObj.t) :=
  [fiveLimit; sevenLimit; elevenLimit; thirteenLimit].

(** The orders of a table, by chromatic interval. *)
Definition orders (t : list JustObj.t) : list Z := map JustObj.order t.

(** The values of [setLimit] that select a table. *)
Definition validLimit (val : Z) : bool :=
  (val =? 5) || (val =? 7) || (val =? 11) || (val =? 13).

(** The Boolean an argument of [setMeanMode] stands for, if any:
    [true], [false], 1 or 0. *)
Definition argBool (a : MeanArg) : option bool :=
  match a with
  | ArgBool b => Some b
  | ArgInt 0 => Some false
  | ArgInt 1 => Some true
  | ArgInt _ => None
  end.

(** ** Arrays of notes *)

(** What the note-off loop of [noteHandler] does to the part of the array it
    has not scanned yet: after a removal the next note moves into the freed
    slot and is never tested. *)
Fixpoint noteOffScan (pitch : Z) (rest : list Note) : list Note :=
  match rest with
  | [] => []
  | N :: rest' =>
      if pitch =? equalPitch N then
        match rest' with
        | [] => []
        | M :: rest'' => M :: noteOffScan pitch rest''
        end
      else N :: noteOffScan pitch rest'
  end.

(** The notes of an array whose pitch is not [pitch], in array order. *)
Definition otherPitches (pitch : Z) (held : list Note) : list Note :=
  List.filter (λ N, negb (equalPitch N =? pitch)) held.

(** How many notes of an array have the pitch [pitch]. *)
Definition heldCount (pitch : Z) (held : list Note) : nat :=
  length (List.filter (λ N, equalPitch N =? pitch) held).

(** The array is ascending when its equal-tempered pitches are. *)
Definition ascending (noteArr : list Note) : Prop :=
  Sorted Z.le (map equalPitch noteArr).

(** ** Loops

    A loop body run over a list of indices, left to right. *)
Fixpoint visit {S X : Type} (body : X → S → option S) (xs : list X) (s : S)
  : option S :=
  match xs with
  | [] => Some s
  | x :: xs' => s' ← body x s; visit body xs' s'
  end.

(** The pairs of indices of an array of [n] notes, in the order of the two
    loops: low index ascending, and for each low index the high index
    ascending from [low + 1]. *)
Definition visitOrder (n : nat) : list (nat * nat) :=
  flat_map (λ lo, map (pair lo) (seq (lo + 1) (n - (lo + 1)))) (seq 0 (n - 1)).

(** ** Invariants of the pairwise adjustment

    What a retuning step may do to a note: it keeps [equalPitch] and
    [velocity] and never lowers [order]. *)
Definition grown (N N' : Note) : Prop :=
  equalPitch N' = equalPitch N ∧ velocity N' = velocity N
  ∧ order N ≤ order N'.

(** The interval of a pair is settled when its order is no higher than the
    order of either note: the test of [adjustPitches] fails on it. *)
Definition settledPair (justSystem : list JustObj.t) (Lo Hi : Note) : Prop :=
  ∃ IntervalObj,
    justSystemAt justSystem (equalPitch Hi - equalPitch Lo) = Some IntervalObj
    ∧ JustObj.order IntervalObj ≤ order Hi
    ∧ JustObj.order IntervalObj ≤ order Lo.

(** An array is settled when all its pairs are. *)
Definition settled (justSystem : list JustObj.t) (noteArr : list Note) : Prop :=
  ∀ lo hi Lo Hi, (lo < hi)%nat →
    noteArr !! lo = Some Lo → noteArr !! hi = Some Hi →
    settledPair justSystem Lo Hi.

(** ** The pairwise adjustment in the words of the specification

    [entry = table[interval mod 12]], with the mathematical [mod]. *)
Definition specEntry (table : list JustObj.t) (lowNote highNote : Note)
  : JustObj.t :=
  nth (Z.to_nat ((equalPitch highNote - equalPitch lowNote) mod 12))
      table (JustObj.mk 0 0 0).

(** The tie-break rule: the pair is adjusted when the rank of its entry
    exceeds the applied rank of the high note or of the low note. *)
Definition specAdjusted (table : list JustObj.t) (lowNote highNote : Note)
  : Prop :=
  JustObj.order (specEntry table lowNote highNote) > order highNote
  ∨ JustObj.order (specEntry table lowNote highNote) > order lowNote.

(** [compoundJust = (entry.justDeviation - (interval mod 12)) + interval] *)
Definition specCompoundJust (table : list JustObj.t) (lowNote highNote : Note)
  : Q :=
  let interval := equalPitch highNote - equalPitch lowNote in
  ((JustObj.justInterval (specEntry table lowNote highNote)
    - inject_Z (interval mod 12)) + inject_Z interval)%Q.

(** The two notes of a pair after its turn: when the pair is adjusted, the
    note of strictly lower applied rank (the high note on a tie) is placed
    relative to the working pitch of the other, and both applied ranks become
    the maximum of their value and the rank of the entry. *)
Definition specAdjustNotes (table : list JustObj.t) (lowNote highNote : Note)
  : Note * Note :=
  let rank := JustObj.order (specEntry table lowNote highNote) in
  let compoundJust := specCompoundJust table lowNote highNote in
  if bool_decide (specAdjusted table lowNote highNote) then
    if bool_decide (order lowNote < order highNote) then
      (mkNote (equalPitch lowNote) (justPitch highNote - compoundJust)
              (Z.max (order lowNote) rank) (velocity lowNote),
       mkNote (equalPitch highNote) (justPitch highNote)
              (Z.max (order highNote) rank) (velocity highNote))
    else
      (mkNote (equalPitch lowNote) (justPitch lowNote)
              (Z.max (order lowNote) rank) (velocity lowNote),
       mkNote (equalPitch highNote) (justPitch lowNote + compoundJust)
              (Z.max (order highNote) rank) (velocity highNote))
  else (lowNote, highNote).

(** The same on the pair of indices [p] of an array. *)
Definition specAdjustAt (table : list JustObj.t) (notes : list Note)
    (p : nat * nat) : list Note :=
  match notes !! p.1, notes !! p.2 with
  | Some lowNote, Some highNote =>
      let (lowNote', highNote') := specAdjustNotes table lowNote highNote in
      <[p.2 := highNote']> (<[p.1 := lowNote']> notes)
  | _, _ => notes
  end.

(** All pairs, in the order of [visitOrder]. *)
Definition specPairwise (table : list JustObj.t) (notes : list Note)
  : list Note :=
  fold_left (specAdjustAt table) (visitOrder (length notes)) notes.

(** ** Totals and passes *)

Definition sumZ (l : list Z) : Z := fold_right Z.add 0 l.
Definition sumQ (l : list Q) : Q := fold_right Qplus 0%Q l.

(** The two totals of a chord. *)
Definition equalTotal (held : list Note) : Z := sumZ (map equalPitch held).
Definition justTotal (held : list Note) : Q := sumQ (map justPitch held).

(** The array on which a pass runs its pairwise adjustment. *)
Definition passInput (held : list Note) : list Note :=
  sortPitchesAscending (resetJustPitches held).

(** The notes a pass leaves, given the result of the pairwise adjustment. *)
Definition passOutput (mean : bool) (noteArr : list Note) : list Note :=
  if mean && (1 <? length noteArr)%nat then meanAdjust noteArr else noteArr.

(** ** Output

    The bend sent for a note. *)
Definition bend (i : Q) (N : Note) : Q :=
  ((justPitch N - inject_Z (equalPitch N)) * i)%Q.

(** The pitch messages of the held notes, in array order. *)
Definition pitchMessages (i : Q) (held : list Note) : list Msg :=
  map (λ N, NoteMessage (equalPitch N) (bend i N)) held.

(** The four messages of [justCompOut]. *)
Definition comparison (i : Q) (held : list Note) : list Msg :=
  [ JustPitches (map (λ N, (bend i N + inject_Z (equalPitch N))%Q) held);
    EqualPitches (map equalPitch held);
    OffsetOctave
      (fold_left (λ arr N, setOctaveSlot arr (equalPitch N) (bend i N))
                 held (replicate 12 0%Q));
    OffsetList (map (bend i) held) ].

(** ** Runs

    What holds of the variables between any two events. *)
Definition wellTuned (st : State) : Prop :=
  In (justSystem st) limits
  ∧ ascending (heldNotes st)
  ∧ settled (justSystem st) (heldNotes st).

(** The table a value of [setLimit] selects. *)
Definition limitTable (val : Z) : option (list JustObj.t) :=
  if val =? 5 then Some fiveLimit
  else if val =? 7 then Some sevenLimit
  else if val =? 11 then Some elevenLimit
  else if val =? 13 then Some thirteenLimit
  else None.

(** The bends of the held notes whose pitch has remainder [k] by 12, in
    array order. *)
Definition pitchClassBends (i : Q) (k : nat) (held : list Note) : list Q :=
  map (bend i)
      (List.filter (λ N, Z.rem (equalPitch N) 12 =? Z.of_nat k) held).

(** ** Concrete chords and runs *)

(** Pitch 60 played three times. *)
Definition threeUnisons : list Event :=
  [EvNoteIn 60 100; EvNoteIn 60 100; EvNoteIn 60 100].

(** 60 and 64. *)
Definition majorThird : list Event := [EvNoteIn 60 100; EvNoteIn 64 100].

(** 60 and 70. *)
Definition minorSeventh : list Event := [EvNoteIn 60 100; EvNoteIn 70 100].

(** 60 and 64, then mean-centering switched off. *)
Definition meanThenFixed : list Event :=
  [EvNoteIn 60 100; EvNoteIn 64 100; EvSetMeanMode (ArgBool false)].

(** 60, 64 and 67, as [noteHandler] leaves them before any pass. *)
Definition majorTriad : list Note :=
  [newNote 60 100; newNote 64 100; newNote 67 100].

(** The variables with 60 and 64 held and tuned. *)
Definition thirdTuned : State := default loaded (run majorThird loaded).

(** The variables with 64 alone held. *)
Definition sixtyFourHeld : State :=
  default loaded (run [EvNoteIn 64 100] loaded).

(** * Verification *)

(** [a >? b] replaced by the Boolean that [lia] finds for it. *)
Ltac gtb_is a b v :=
  replace (a >? b) with v
    by (symmetry; rewrite Z.gtb_ltb;
        first [apply Z.ltb_ge; lia | apply Z.ltb_lt; lia]).

(** The note at an index within the array. *)
Ltac note_at arr i N H :=
  destruct (lookup_lt_is_Some_2 arr i) as [N H]; [lia |].

(** The top-level call [setLimit(5)] leaves the program as [loaded]. *)
Example loaded_ok : setLimit 5 initialVars = Some loaded.
Proof. reflexivity. Qed.

(** ** The tuning tables *)

Lemma limits_length t : In t limits → length t = 12%nat.
Proof.
  unfold limits; simpl; intros H.
  repeat (destruct H as [<- | H]; [reflexivity |]); destruct H.
Qed.

(** C9.  In each of the four tables the twelve orders are a permutation of
    0..11, and the entry of the unison has just interval 0 and order 11. *)
Theorem limits_orders_permutation :
  ∀ t, In t limits →
    Permutation (orders t) [0; 1; 2; 3; 4; 5; 6; 7; 8; 9; 10; 11]
    ∧ ∃ unison, t !! 0%nat = Some unison
        ∧ JustObj.justInterval unison == 0
        ∧ JustObj.order unison = 11
        ∧ Forall (λ o, o ≤ 11) (orders t).
Proof.
  intros t Ht. unfold limits in Ht; simpl in Ht.
  repeat (destruct Ht as [<- | Ht]); try destruct Ht;
    (split; [apply (bool_decide_unpack _); vm_compute; exact I |]);
    (eexists; split; [reflexivity |]);
    (split; [reflexivity |]); (split; [reflexivity |]);
    unfold orders; simpl; repeat constructor; lia.
Qed.

Lemma limits_orders_permutation_witness :
  In sevenLimit limits
  ∧ Permutation (orders sevenLimit) [0; 1; 2; 3; 4; 5; 6; 7; 8; 9; 10; 11].
Proof.
  assert (Hin : In sevenLimit limits) by (unfold limits; simpl; auto).
  split; [exact Hin |].
  apply (limits_orders_permutation sevenLimit). exact Hin.
Defined.

(** ** Note-off *)

(** The note-off loop stops by itself: once the fuel covers the part of the
    array that is still to be scanned, more fuel changes nothing. *)
Lemma noteOffLoop_fuel pitch :
  ∀ fuel fuel' i held,
    (length held - i ≤ fuel)%nat → (length held - i ≤ fuel')%nat →
    noteOffLoop fuel pitch i held = noteOffLoop fuel' pitch i held.
Proof.
  induction fuel as [| fuel IH]; intros fuel' i held Hfuel Hfuel'.
  - destruct fuel' as [| fuel']; [reflexivity |].
    simpl. rewrite lookup_ge_None_2 by lia. reflexivity.
  - simpl. destruct (held !! i) as [N |] eqn:HN.
    + pose proof (lookup_lt_Some _ _ _ HN) as Hi.
      destruct fuel' as [| fuel']; [lia |].
      simpl. rewrite HN.
      destruct (pitch =? equalPitch N).
      * apply IH; unfold removeNote; rewrite length_delete by eauto; lia.
      * apply IH; lia.
    + destruct fuel' as [| fuel']; [reflexivity |].
      simpl. rewrite HN. reflexivity.
Qed.

Lemma noteOffScan_ind (P : list Note → Prop) :
  P [] → (∀ N, P [N]) → (∀ N M l, P l → P (M :: l) → P (N :: M :: l)) →
  ∀ l, P l.
Proof.
  intros H0 H1 H2 l.
  assert (H : P l ∧ ∀ N, P (N :: l)); [| tauto].
  induction l as [| M l [IHa IHb]]; split; auto.
Qed.

Lemma noteOffLoop_scan pitch :
  ∀ rest kept fuel, (length rest ≤ fuel)%nat →
    noteOffLoop fuel pitch (length kept) (kept ++ rest)
    = kept ++ noteOffScan pitch rest.
Proof.
  intros rest. induction rest as [| N | N M rest IH1 IH2] using noteOffScan_ind;
    intros kept fuel Hfuel.
  - destruct fuel; simpl; [reflexivity |].
    rewrite lookup_ge_None_2 by (rewrite length_app; simpl; lia). reflexivity.
  - destruct fuel as [| fuel]; [simpl in Hfuel; lia |].
    simpl. rewrite list_lookup_middle by reflexivity.
    destruct (pitch =? equalPitch N).
    + unfold removeNote. rewrite delete_middle.
      destruct fuel; simpl; [reflexivity |].
      rewrite lookup_ge_None_2 by (rewrite length_app; simpl; lia).
      reflexivity.
    + replace (kept ++ [N]) with ((kept ++ [N]) ++ []) at 1
        by apply app_nil_r.
      replace (S (length kept)) with (length (kept ++ [N]))
        by (rewrite length_app; simpl; lia).
      destruct fuel; simpl; [apply app_nil_r |].
      rewrite lookup_ge_None_2 by (rewrite !length_app; simpl; lia).
      apply app_nil_r.
  - destruct fuel as [| fuel]; [simpl in Hfuel; lia |].
    simpl in Hfuel. simpl noteOffLoop.
    rewrite list_lookup_middle by reflexivity.
    destruct (pitch =? equalPitch N) eqn:HN.
    + unfold removeNote. rewrite delete_middle.
      replace (kept ++ M :: rest) with ((kept ++ [M]) ++ rest)
        by (rewrite <- app_assoc; reflexivity).
      replace (S (length kept)) with (length (kept ++ [M]))
        by (rewrite length_app; simpl; lia).
      rewrite IH1 by lia.
      simpl. rewrite HN. rewrite <- app_assoc. reflexivity.
    + replace (kept ++ N :: M :: rest) with ((kept ++ [N]) ++ M :: rest)
        by (rewrite <- app_assoc; reflexivity).
      replace (S (length kept)) with (length (kept ++ [N]))
        by (rewrite length_app; simpl; lia).
      rewrite IH2 by (simpl; lia).
      simpl noteOffScan at 2. rewrite HN.
      rewrite <- app_assoc. reflexivity.
Qed.

(** A note-off handled by [noteHandler] is one scan of the whole array. *)
Lemma noteHandler_off pitch velocity held :
  velocity ≤ 0 → noteHandler pitch velocity held = noteOffScan pitch held.
Proof.
  intros Hv. unfold noteHandler.
  gtb_is velocity 0 false.
  apply (noteOffLoop_scan pitch held [] (length held)). lia.
Qed.

(** A note-off of a pitch held once removes that note and nothing else. *)
Lemma noteOffScan_single pitch front N back :
  Forall (λ M, equalPitch M ≠ pitch) front →
  equalPitch N = pitch →
  Forall (λ M, equalPitch M ≠ pitch) back →
  noteOffScan pitch (front ++ N :: back) = front ++ back.
Proof.
  intros Hfront HN Hback.
  assert (Hb : ∀ l, Forall (λ M, equalPitch M ≠ pitch) l →
                    noteOffScan pitch l = l).
  { induction 1 as [| M l HM _ IH]; simpl; [reflexivity |].
    replace (pitch =? equalPitch M) with false
      by (symmetry; apply Z.eqb_neq; congruence).
    congruence. }
  induction Hfront as [| M front HM _ IH]; simpl.
  - rewrite <- HN, Z.eqb_refl. destruct back as [| B back]; [reflexivity |].
    inversion Hback; subst. f_equal. apply Hb. assumption.
  - replace (pitch =? equalPitch M) with false
      by (symmetry; apply Z.eqb_neq; congruence).
    congruence.
Qed.

(** C1 (the code departs from the claim).  With pitch 60 held three times, one
    note-off of pitch 60 removes two of the three notes: the loop of
    [noteHandler] goes on after the first removal, skips the note that moved
    into the freed slot and removes the next match. *)
Theorem noteOff_three_unisons_removes_two :
  ∃ st st',
    run threeUnisons loaded = Some st
    ∧ map equalPitch (heldNotes st) = [60; 60; 60]
    ∧ noteIn 60 0 st = Some st'
    ∧ heldNotes st' = [newNote 60 100]
    ∧ noteHandler 60 0 (heldNotes st) ≠ removeNote 0 (heldNotes st).
Proof.
  do 2 eexists. split; [vm_compute; reflexivity |].
  split; [reflexivity |]. split; [vm_compute; reflexivity |].
  split; [reflexivity |]. vm_compute. discriminate.
Qed.

(** ** Sorting *)

Lemma ascending_cons a l :
  ascending (a :: l) ↔
  ascending l ∧ Forall (λ b, equalPitch a ≤ equalPitch b) l.
Proof.
  unfold ascending; simpl. split.
  - intros H. apply Sorted_StronglySorted in H; [| intros x y z; lia].
    apply StronglySorted_inv in H as [Hs Hall].
    split; [apply StronglySorted_Sorted; assumption |].
    apply (proj1 (List.Forall_map equalPitch (Z.le (equalPitch a)) l)).
    exact Hall.
  - intros [Hs Hall]. constructor; [assumption |].
    destruct l as [| b l]; simpl; constructor.
    inversion Hall; assumption.
Qed.

Lemma ascending_lookup noteArr i j a b :
  ascending noteArr → (i < j)%nat →
  noteArr !! i = Some a → noteArr !! j = Some b →
  equalPitch a ≤ equalPitch b.
Proof.
  revert i j. induction noteArr as [| c l IH]; intros i j Hasc Hij Hi Hj.
  - discriminate.
  - apply ascending_cons in Hasc as [Hl Hall].
    destruct j as [| j]; [lia |]. simpl in Hj.
    destruct i as [| i]; simpl in Hi.
    + injection Hi as <-. rewrite List.Forall_forall in Hall.
      apply Hall. apply list_elem_of_In, list_elem_of_lookup. eauto.
    + apply (IH i j); auto; lia.
Qed.

Lemma insertNote_perm a l : Permutation (insertNote a l) (a :: l).
Proof.
  induction l as [| b l IH]; simpl; [reflexivity |].
  destruct (equalPitch a - equalPitch b <=? 0); [reflexivity |].
  rewrite IH. apply perm_swap.
Qed.

Lemma sortPitchesAscending_perm l : Permutation (sortPitchesAscending l) l.
Proof.
  induction l as [| a l IH]; simpl; [reflexivity |].
  rewrite insertNote_perm. constructor. exact IH.
Qed.

Lemma sortPitchesAscending_length l :
  length (sortPitchesAscending l) = length l.
Proof. apply Permutation_length, sortPitchesAscending_perm. Qed.

Lemma insertNote_ascending a l : ascending l → ascending (insertNote a l).
Proof.
  induction l as [| b l IH]; intros Hl; simpl.
  - repeat constructor.
  - destruct (equalPitch a - equalPitch b <=? 0) eqn:Hab.
    + apply Z.leb_le in Hab. constructor; [exact Hl |].
      constructor. lia.
    + apply Z.leb_gt in Hab.
      apply ascending_cons in Hl as [Hl Hall].
      apply ascending_cons. split; [auto |].
      rewrite List.Forall_forall in *. intros c Hc.
      apply (Permutation_in _ (insertNote_perm a l)) in Hc.
      destruct Hc as [<- | Hc]; [lia | auto].
Qed.

Lemma sortPitchesAscending_ascending l : ascending (sortPitchesAscending l).
Proof.
  induction l as [| a l IH]; simpl.
  - constructor.
  - apply insertNote_ascending, IH.
Qed.

(** Sorting an ascending array leaves it as it is. *)
Lemma sortPitchesAscending_id l : ascending l → sortPitchesAscending l = l.
Proof.
  induction l as [| a l IH]; intros Hl; simpl; [reflexivity |].
  apply ascending_cons in Hl as [Hl Hall].
  rewrite IH by assumption.
  destruct l as [| b l]; simpl; [reflexivity |].
  inversion Hall as [| ? ? Hab _]; subst.
  replace (equalPitch a - equalPitch b <=? 0) with true
    by (symmetry; apply Z.leb_le; lia).
  reflexivity.
Qed.

(** Sorting looks at [equalPitch] only. *)
Lemma sortPitchesAscending_map (f : Note → Note) l :
  (∀ N, equalPitch (f N) = equalPitch N) →
  sortPitchesAscending (map f l) = map f (sortPitchesAscending l).
Proof.
  intros Hf.
  assert (Hins : ∀ a k, insertNote (f a) (map f k) = map f (insertNote a k)).
  { intros a k. induction k as [| b k IH]; simpl; [reflexivity |].
    rewrite !Hf. destruct (equalPitch a - equalPitch b <=? 0); simpl;
      [reflexivity | rewrite IH; reflexivity]. }
  induction l as [| a l IH]; simpl; [reflexivity |].
  rewrite IH. apply Hins.
Qed.

(** ** The order in which the pairs are visited *)

Lemma forSteps_visit {S : Type} (body : nat → S → option S) n :
  ∀ i s, forSteps n i body s = visit body (seq i n) s.
Proof.
  induction n as [| n IH]; intros i s; simpl; [reflexivity |].
  destruct (body i s); simpl; [apply IH | reflexivity].
Qed.

Lemma visit_app {S X : Type} (body : X → S → option S) xs ys s :
  visit body (xs ++ ys) s = s' ← visit body xs s; visit body ys s'.
Proof.
  revert s. induction xs as [| x xs IH]; intros s; simpl; [reflexivity |].
  destruct (body x s); simpl; [apply IH | reflexivity].
Qed.

Lemma visit_ext {S X : Type} (f g : X → S → option S) xs s :
  (∀ x t, f x t = g x t) → visit f xs s = visit g xs s.
Proof.
  intros Hfg. revert s. induction xs as [| x xs IH]; intros s; simpl;
    [reflexivity |].
  rewrite Hfg. destruct (g x s); simpl; [apply IH | reflexivity].
Qed.

Example visitOrder_4 :
  visitOrder 4 = [(0, 1); (0, 2); (0, 3); (1, 2); (1, 3); (2, 3)]%nat.
Proof. reflexivity. Qed.

Lemma visitOrder_spec n lo hi :
  In (lo, hi) (visitOrder n) ↔ (lo < hi < n)%nat.
Proof.
  unfold visitOrder. rewrite in_flat_map. split.
  - intros (lo' & Hlo & Hin). apply in_map_iff in Hin as (hi' & Heq & Hhi).
    injection Heq as -> ->. apply in_seq in Hhi. lia.
  - intros H. exists lo. split; [apply in_seq; lia |].
    apply in_map_iff. exists hi. split; [reflexivity | apply in_seq; lia].
Qed.

Lemma visit_nested {S : Type} (body : nat → nat → S → option S)
    (inner : nat → list nat) (outer : list nat) (s : S) :
  visit (λ lo, visit (body lo) (inner lo)) outer s
  = visit (λ p, body p.1 p.2) (flat_map (λ lo, map (pair lo) (inner lo)) outer) s.
Proof.
  revert s. induction outer as [| lo outer IH]; intros s; simpl; [reflexivity |].
  rewrite visit_app.
  assert (Hin : ∀ his t, visit (body lo) his t
                 = visit (λ p, body p.1 p.2) (map (pair lo) his) t).
  { induction his as [| hi his IHh]; intros t; simpl; [reflexivity |].
    destruct (body lo hi t); simpl; [apply IHh | reflexivity]. }
  rewrite Hin.
  destruct (visit _ (map (pair lo) (inner lo)) s); simpl;
    [apply IH | reflexivity].
Qed.

(** [adjustPitches] runs the loop body over the pairs in [visitOrder]. *)
Lemma adjustPitches_visit justSystem noteArr :
  adjustPitches justSystem noteArr
  = visit (λ p, adjustPair justSystem p.1 p.2)
      (visitOrder (length noteArr)) noteArr.
Proof.
  unfold adjustPitches, forLoop, visitOrder.
  rewrite forSteps_visit, Nat.sub_0_r.
  rewrite <- (visit_nested (adjustPair justSystem)
                (λ lo, seq (lo + 1) (length noteArr - (lo + 1)))).
  apply visit_ext. intros lo t. apply forSteps_visit.
Qed.

(** A visit that satisfies an invariant at every step does not throw and ends
    in a state that satisfies it. *)
Lemma visit_invariant {S X : Type} (body : X → S → option S)
    (Inv : list X → S → Prop) (xs : list X) :
  (∀ done x s, Inv done s → In x xs →
     ∃ s', body x s = Some s' ∧ Inv (done ++ [x]) s') →
  ∀ s, Inv [] s → ∃ s', visit body xs s = Some s' ∧ Inv xs s'.
Proof.
  intros Hstep.
  assert (H : ∀ rest done s, (∀ x, In x rest → In x xs) → Inv done s →
               ∃ s', visit body rest s = Some s' ∧ Inv (done ++ rest) s').
  { induction rest as [| x rest IH]; intros done s Hsub Hinv; simpl.
    - exists s. rewrite app_nil_r. auto.
    - destruct (Hstep done x s Hinv) as (s1 & -> & Hinv1);
        [apply Hsub; left; reflexivity |].
      simpl. destruct (IH (done ++ [x]) s1) as (s2 & Hv & Hinv2);
        [intros y Hy; apply Hsub; right; exact Hy | exact Hinv1 |].
      exists s2. rewrite <- app_assoc in Hinv2. auto. }
  intros s Hs. apply (H xs [] s); auto.
Qed.

(** ** One pair *)

Lemma grown_refl N : grown N N.
Proof. unfold grown. lia. Qed.

Lemma grown_trans N1 N2 N3 : grown N1 N2 → grown N2 N3 → grown N1 N3.
Proof. unfold grown. intros (? & ? & ?) (? & ? & ?). repeat split; lia. Qed.

Lemma grown_resetNote N N' : grown N N' → resetNote N' = resetNote N.
Proof. unfold grown, resetNote. intros (-> & -> & _). reflexivity. Qed.

Lemma Forall2_grown_refl l : Forall2 grown l l.
Proof. induction l; constructor; auto using grown_refl. Qed.

Create HintDb tuning.
#[local] Hint Resolve grown_refl Forall2_grown_refl : tuning.

Lemma Forall2_grown_trans l1 l2 l3 :
  Forall2 grown l1 l2 → Forall2 grown l2 l3 → Forall2 grown l1 l3.
Proof.
  intros H12. revert l3. induction H12 as [| a b l1 l2 Hab _ IH]; intros l3 H23.
  - inversion H23. constructor.
  - inversion H23; subst. constructor; eauto using grown_trans.
Qed.

Lemma Forall2_grown_pitches l l' :
  Forall2 grown l l' → map equalPitch l' = map equalPitch l.
Proof.
  induction 1 as [| a b l l' (Hp & _) _ IH]; simpl; congruence.
Qed.

Lemma Forall2_grown_reset l l' :
  Forall2 grown l l' → map resetNote l' = map resetNote l.
Proof.
  induction 1 as [| a b l l' Hab _ IH]; simpl; [reflexivity |].
  rewrite (grown_resetNote _ _ Hab), IH. reflexivity.
Qed.

Lemma Forall2_grown_ascending l l' :
  Forall2 grown l l' → ascending l → ascending l'.
Proof.
  intros H. unfold ascending. rewrite (Forall2_grown_pitches _ _ H). auto.
Qed.

Lemma Forall2_grown_insert l i N N' :
  l !! i = Some N → grown N N' → Forall2 grown l (<[i := N']> l).
Proof.
  revert i. induction l as [| a l IH]; intros i Hi HN; [discriminate |].
  destruct i as [| i]; simpl in *.
  - injection Hi as ->. constructor; [exact HN | apply Forall2_grown_refl].
  - constructor; [apply grown_refl | eauto].
Qed.

Lemma settledPair_grown justSystem Lo Hi Lo' Hi' :
  settledPair justSystem Lo Hi → grown Lo Lo' → grown Hi Hi' →
  settledPair justSystem Lo' Hi'.
Proof.
  intros (e & He & H1 & H2) (Hp & _ & Ho) (Hp' & _ & Ho').
  exists e. rewrite Hp, Hp'. repeat split; [exact He | lia | lia].
Qed.

Lemma adjustPair_settled justSystem lo hi noteArr Lo Hi :
  noteArr !! lo = Some Lo → noteArr !! hi = Some Hi →
  settledPair justSystem Lo Hi →
  adjustPair justSystem lo hi noteArr = Some noteArr.
Proof.
  intros HLo HHi (e & He & H1 & H2).
  unfold adjustPair. rewrite HLo, HHi. simpl. rewrite He. simpl.
  gtb_is (JustObj.order e) (order Hi) false.
  gtb_is (JustObj.order e) (order Lo) false.
  reflexivity.
Qed.

(** On an array that is settled, [adjustPitches] changes nothing. *)
Lemma adjustPitches_settled justSystem noteArr :
  settled justSystem noteArr →
  adjustPitches justSystem noteArr = Some noteArr.
Proof.
  intros Hs. rewrite adjustPitches_visit.
  assert (H : ∀ ps, (∀ p, In p ps → (p.1 < p.2 < length noteArr)%nat) →
               visit (λ p, adjustPair justSystem p.1 p.2) ps noteArr
               = Some noteArr).
  { induction ps as [| [lo hi] ps IH]; intros Hps; simpl; [reflexivity |].
    destruct (Hps (lo, hi)) as [Hlt Hhi]; [left; reflexivity |]. simpl in *.
    note_at noteArr lo Lo HLo. note_at noteArr hi Hi HHi.
    rewrite (adjustPair_settled _ _ _ _ Lo Hi) by eauto.
    simpl. apply IH. intros p Hp. apply Hps. right. exact Hp. }
  apply H. intros [lo hi] Hp. apply visitOrder_spec in Hp. exact Hp.
Qed.

Lemma updateOrder_max N o : updateOrder N o = set_order (Z.max (order N) o) N.
Proof.
  unfold updateOrder. destruct (o >? order N) eqn:Ho.
  - rewrite Z.gtb_ltb in Ho. apply Z.ltb_lt in Ho.
    rewrite Z.max_r by lia. reflexivity.
  - rewrite Z.gtb_ltb in Ho. apply Z.ltb_ge in Ho.
    rewrite Z.max_l by lia. destruct N; reflexivity.
Qed.

Lemma grown_updateOrder N o : grown N (updateOrder N o).
Proof. rewrite updateOrder_max. unfold grown; simpl. lia. Qed.

Lemma grown_set_justPitch N p : grown N (set_justPitch p N).
Proof. unfold grown; simpl. lia. Qed.

#[local] Hint Resolve grown_updateOrder grown_set_justPitch : tuning.

(** ** The pairwise adjustment on an ascending array *)

Section Pairwise.

(** The selected table, of twelve entries like the four of the program. *)
Variable table : list JustObj.t.
Hypothesis table_twelve : length table = 12%nat.

(** In an ascending array the interval of a pair has an entry in a table of
    twelve. *)
Lemma justSystemAt_Some interval :
  0 ≤ interval →
  ∃ IntervalObj, justSystemAt table interval = Some IntervalObj
    ∧ Z.rem interval 12 = interval mod 12.
Proof.
  intros Hi. unfold justSystemAt.
  pose proof (Z.rem_bound_pos interval 12 Hi ltac:(lia)) as Hb.
  replace (Z.rem interval 12 <? 0) with false
    by (symmetry; apply Z.ltb_ge; lia).
  destruct (lookup_lt_is_Some_2 table (Z.to_nat (Z.rem interval 12)))
    as [e He]; [rewrite table_twelve; lia |].
  exists e. split; [exact He |]. apply Z.rem_mod_nonneg; lia.
Qed.

(** One turn of the inner loop on a pair of an ascending array: it does not
    throw, notes only grow, and the pair is settled afterwards. *)
Lemma adjustPair_step lo hi noteArr :
  ascending noteArr → (lo < hi < length noteArr)%nat →
  ∃ noteArr' Lo' Hi',
    adjustPair table lo hi noteArr = Some noteArr'
    ∧ Forall2 grown noteArr noteArr'
    ∧ noteArr' !! lo = Some Lo' ∧ noteArr' !! hi = Some Hi'
    ∧ settledPair table Lo' Hi'.
Proof.
  intros Hasc [Hlt Hhi].
  note_at noteArr lo Lo HLo. note_at noteArr hi Hi HHi.
  pose proof (ascending_lookup _ _ _ _ _ Hasc Hlt HLo HHi) as Hle.
  destruct (justSystemAt_Some (equalPitch Hi - equalPitch Lo))
    as (e & He & _); [lia |].
  unfold adjustPair. rewrite HLo, HHi. simpl. rewrite He. simpl.
  destruct ((JustObj.order e >? order Hi) || (JustObj.order e >? order Lo))
    eqn:Hcond.
  - set (c := ((JustObj.justInterval e
                - inject_Z (Z.rem (equalPitch Hi - equalPitch Lo) 12))
               + inject_Z (equalPitch Hi - equalPitch Lo))%Q).
    destruct (createInterval Hi Lo c) as [Hi1 Lo1] eqn:Hcreate.
    assert (HgL : grown Lo Lo1 ∧ grown Hi Hi1).
    { unfold createInterval in Hcreate.
      destruct (order Hi >? order Lo); injection Hcreate as <- <-;
        auto with tuning. }
    destruct HgL as [HgL HgH].
    set (Lo2 := updateOrder Lo1 (JustObj.order e)).
    set (Hi2 := updateOrder Hi1 (JustObj.order e)).
    assert (HgL2 : grown Lo Lo2)
      by (eapply grown_trans; [exact HgL | apply grown_updateOrder]).
    assert (HgH2 : grown Hi Hi2)
      by (eapply grown_trans; [exact HgH | apply grown_updateOrder]).
    exists (<[hi := Hi2]> (<[lo := Lo2]> noteArr)), Lo2, Hi2.
    split; [reflexivity |]. split.
    { eapply Forall2_grown_trans.
      - eapply Forall2_grown_insert; [exact HLo | exact HgL2].
      - eapply Forall2_grown_insert; [| exact HgH2].
        rewrite list_lookup_insert_ne by lia. exact HHi. }
    split.
    { rewrite list_lookup_insert_ne by lia.
      apply list_lookup_insert_eq. lia. }
    split.
    { apply list_lookup_insert_eq. rewrite length_insert. lia. }
    exists e. destruct HgL2 as (-> & _ & _). destruct HgH2 as (-> & _ & _).
    split; [exact He |].
    subst Lo2 Hi2. rewrite !updateOrder_max. simpl. lia.
  - apply orb_false_elim in Hcond as [H1 H2].
    rewrite Z.gtb_ltb in H1, H2. apply Z.ltb_ge in H1, H2.
    exists noteArr, Lo, Hi. split; [reflexivity |].
    split; [apply Forall2_grown_refl |].
    split; [exact HLo |]. split; [exact HHi |].
    exists e. auto.
Qed.

(** A complete run of [adjustPitches] on an ascending array: it does not
    throw, notes only grow, and every pair is settled afterwards. *)
Lemma adjustPitches_total noteArr :
  ascending noteArr →
  ∃ noteArr',
    adjustPitches table noteArr = Some noteArr'
    ∧ Forall2 grown noteArr noteArr'
    ∧ settled table noteArr'.
Proof.
  intros Hasc. rewrite adjustPitches_visit.
  set (Inv := λ (done : list (nat * nat)) (arr : list Note),
         Forall2 grown noteArr arr
         ∧ ∀ p Lo Hi, In p done → arr !! p.1 = Some Lo → arr !! p.2 = Some Hi →
             settledPair table Lo Hi).
  destruct (visit_invariant (λ p, adjustPair table p.1 p.2) Inv
              (visitOrder (length noteArr))) with (s := noteArr)
    as (arr' & Hrun & Hg & Hall).
  - intros done [lo hi] arr [Hg Hdone] Hin. simpl.
    apply visitOrder_spec in Hin.
    destruct (adjustPair_step lo hi arr) as
      (arr1 & Lo1 & Hi1 & Hstep & Hg1 & HLo1 & HHi1 & Hset).
    { eapply Forall2_grown_ascending; eauto. }
    { rewrite <- (Forall2_length Hg). exact Hin. }
    exists arr1. split; [exact Hstep |]. split.
    { eapply Forall2_grown_trans; eauto. }
    intros [a b] La Hb Hp HLa HHb. simpl in *.
    apply in_app_or in Hp as [Hp | [Hp | []]].
    + destruct (Forall2_lookup_r _ _ _ _ _ Hg1 HLa) as (La0 & HLa0 & HgLa).
      destruct (Forall2_lookup_r _ _ _ _ _ Hg1 HHb) as (Hb0 & HHb0 & HgHb).
      eapply settledPair_grown; [| exact HgLa | exact HgHb].
      apply (Hdone (a, b)); assumption.
    + injection Hp as <- <-. congruence.
  - split; [apply Forall2_grown_refl |]. intros p Lo Hi [].
  - exists arr'. split; [exact Hrun |]. split; [exact Hg |].
    intros lo hi Lo Hi Hlt HLo HHi.
    apply (Hall (lo, hi)); [| exact HLo | exact HHi].
    apply visitOrder_spec. split; [exact Hlt |].
    rewrite (Forall2_length Hg). eapply lookup_lt_Some; eauto.
Qed.

Lemma adjustPair_spec lo hi noteArr :
  ascending noteArr → (lo < hi < length noteArr)%nat →
  adjustPair table lo hi noteArr = Some (specAdjustAt table noteArr (lo, hi)).
Proof.
  intros Hasc [Hlt Hhi].
  note_at noteArr lo Lo HLo. note_at noteArr hi Hi HHi.
  pose proof (ascending_lookup _ _ _ _ _ Hasc Hlt HLo HHi) as Hle.
  destruct (justSystemAt_Some (equalPitch Hi - equalPitch Lo))
    as (e & He & Hrem); [lia |].
  assert (Hentry : specEntry table Lo Hi = e).
  { unfold specEntry. unfold justSystemAt in He.
    destruct (Z.rem (equalPitch Hi - equalPitch Lo) 12 <? 0); [discriminate |].
    rewrite <- Hrem. apply nth_lookup_Some with (d := JustObj.mk 0 0 0) in He.
    exact He. }
  unfold adjustPair, specAdjustAt. simpl. rewrite HLo, HHi. simpl.
  rewrite He. simpl. unfold specAdjustNotes, specAdjusted, specCompoundJust.
  rewrite Hentry, Hrem.
  destruct (bool_decide_reflect
              (JustObj.order e > order Hi ∨ JustObj.order e > order Lo))
    as [Hadj | Hadj].
  - replace ((JustObj.order e >? order Hi) || (JustObj.order e >? order Lo))
      with true.
    2:{ symmetry. apply orb_true_iff. rewrite !Z.gtb_ltb, !Z.ltb_lt. lia. }
    unfold createInterval.
    destruct (bool_decide_reflect (order Lo < order Hi)) as [Hlh | Hlh].
    + gtb_is (order Hi) (order Lo) true.
      rewrite !updateOrder_max. destruct Hi; reflexivity.
    + gtb_is (order Hi) (order Lo) false.
      rewrite !updateOrder_max. destruct Lo; reflexivity.
  - replace ((JustObj.order e >? order Hi) || (JustObj.order e >? order Lo))
      with false.
    2:{ symmetry. apply orb_false_iff. rewrite !Z.gtb_ltb, !Z.ltb_ge. lia. }
    rewrite (list_insert_id noteArr lo Lo) by exact HLo.
    rewrite (list_insert_id noteArr hi Hi) by exact HHi.
    reflexivity.
Qed.

Lemma specAdjustAt_grown notes lo hi :
  (lo ≠ hi)%nat → Forall2 grown notes (specAdjustAt table notes (lo, hi)).
Proof.
  intros Hne. unfold specAdjustAt; simpl.
  destruct (notes !! lo) as [Lo |] eqn:HLo; [| apply Forall2_grown_refl].
  destruct (notes !! hi) as [Hi |] eqn:HHi; [| apply Forall2_grown_refl].
  destruct (specAdjustNotes table Lo Hi) as [Lo' Hi'] eqn:Hs.
  assert (Hg : grown Lo Lo' ∧ grown Hi Hi').
  { unfold specAdjustNotes in Hs.
    repeat destruct (bool_decide _); injection Hs as <- <-;
      unfold grown; simpl; lia. }
  destruct Hg as [HgL HgH].
  eapply Forall2_grown_trans.
  - eapply Forall2_grown_insert; [exact HLo | exact HgL].
  - eapply Forall2_grown_insert; [| exact HgH].
    rewrite list_lookup_insert_ne by lia. exact HHi.
Qed.

(** C2.  On the ascending array of a retuning pass, the pairwise-adjustment
    step visits the pairs in the order (low ascending, high ascending from
    low + 1) and treats each pair as specified: the pair is adjusted exactly
    when the rank of the entry of its interval class exceeds the applied
    rank of the high or of the low note; then the note of strictly lower
    applied rank (the high note on a tie) is placed at the compound just
    interval from the other one, and both applied ranks become the maximum
    of their value and the entry's rank. *)
Theorem adjustPitches_refines_spec :
  ∀ noteArr,
    ascending noteArr →
    adjustPitches table noteArr = Some (specPairwise table noteArr).
Proof.
  intros noteArr Hasc.
  rewrite adjustPitches_visit. unfold specPairwise.
  assert (H : ∀ ps arr, Forall2 grown noteArr arr →
               (∀ p, In p ps → (p.1 < p.2 < length noteArr)%nat) →
               visit (λ p, adjustPair table p.1 p.2) ps arr
               = Some (fold_left (specAdjustAt table) ps arr)).
  { induction ps as [| [lo hi] ps IH]; intros arr Hg Hps; simpl;
      [reflexivity |].
    destruct (Hps (lo, hi)) as [Hlt Hhi]; [left; reflexivity |]. simpl in *.
    rewrite adjustPair_spec;
      [| eapply Forall2_grown_ascending; eauto
       | rewrite <- (Forall2_length Hg); lia ].
    simpl. apply IH.
    - eapply Forall2_grown_trans; [exact Hg |].
      apply specAdjustAt_grown. lia.
    - intros p Hp. apply Hps. right. exact Hp. }
  apply H; [apply Forall2_grown_refl |].
  intros [lo hi] Hp. apply visitOrder_spec in Hp. exact Hp.
Qed.

End Pairwise.

(** ** Mean-centering *)

Lemma fold_left_equalTotal held a :
  fold_left (λ tot N, tot + equalPitch N) held a = a + equalTotal held.
Proof.
  revert a. induction held as [| N held IH]; intros a; simpl.
  - unfold equalTotal; simpl. lia.
  - rewrite IH. unfold equalTotal; simpl. lia.
Qed.

Lemma fold_left_justTotal held a :
  (fold_left (λ tot N, tot + justPitch N) held a == a + justTotal held)%Q.
Proof.
  revert a. induction held as [| N held IH]; intros a; simpl.
  - unfold justTotal; simpl. ring.
  - rewrite IH. unfold justTotal; simpl. ring.
Qed.

Lemma justTotal_offsetAllPitches offset held :
  (justTotal (offsetAllPitches offset held)
   == justTotal held + inject_Z (Z.of_nat (length held)) * offset)%Q.
Proof.
  induction held as [| N held IH].
  - unfold justTotal; simpl. ring.
  - unfold justTotal, offsetAllPitches, sumQ in *.
    cbn [map fold_right justPitch set_justPitch]. rewrite IH.
    rewrite length_cons, Nat2Z.inj_succ. unfold Z.succ.
    rewrite inject_Z_plus. ring.
Qed.

Lemma equalTotal_offsetAllPitches offset held :
  equalTotal (offsetAllPitches offset held) = equalTotal held.
Proof.
  unfold equalTotal, offsetAllPitches. rewrite map_map. reflexivity.
Qed.

(** [meanAdjust] makes the two totals equal on a chord that is not empty. *)
Lemma meanAdjust_totals held :
  held ≠ [] →
  (justTotal (meanAdjust held) == inject_Z (equalTotal (meanAdjust held)))%Q.
Proof.
  intros Hne. unfold meanAdjust.
  rewrite equalTotal_offsetAllPitches, justTotal_offsetAllPitches.
  rewrite fold_left_equalTotal, fold_left_justTotal. simpl.
  assert (Hn : ¬ (inject_Z (Z.of_nat (length held)) == 0)%Q).
  { destruct held as [| N held]; [congruence |].
    rewrite length_cons. unfold Qeq; simpl. lia. }
  rewrite Z.add_0_l. field. exact Hn.
Qed.

Lemma offsetAllPitches_grown offset held :
  Forall2 grown held (offsetAllPitches offset held).
Proof.
  induction held as [| N held IH]; simpl; constructor; auto with tuning.
Qed.

Lemma meanAdjust_grown held : Forall2 grown held (meanAdjust held).
Proof. unfold meanAdjust. apply offsetAllPitches_grown. Qed.

Lemma meanAdjust_orders held :
  map order (meanAdjust held) = map order held.
Proof.
  unfold meanAdjust, offsetAllPitches. rewrite map_map. reflexivity.
Qed.

Lemma settled_same_orders justSystem l l' :
  map equalPitch l' = map equalPitch l → map order l' = map order l →
  settled justSystem l → settled justSystem l'.
Proof.
  intros Hp Ho Hs lo hi Lo' Hi' Hlt HLo HHi.
  assert (Hnth : ∀ i N', l' !! i = Some N' →
            ∃ N, l !! i = Some N ∧ equalPitch N = equalPitch N'
                 ∧ order N = order N').
  { intros i N' HN'.
    assert (H1 : map equalPitch l' !! i = Some (equalPitch N'))
      by (change (map equalPitch l') with (equalPitch <$> l');
          rewrite list_lookup_fmap, HN'; reflexivity).
    assert (H2 : map order l' !! i = Some (order N'))
      by (change (map order l') with (order <$> l');
          rewrite list_lookup_fmap, HN'; reflexivity).
    rewrite Hp in H1. rewrite Ho in H2.
    change (map equalPitch l) with (equalPitch <$> l) in H1.
    change (map order l) with (order <$> l) in H2.
    rewrite list_lookup_fmap in H1, H2.
    destruct (l !! i) as [N |]; [| discriminate].
    simpl in *. exists N. split; [reflexivity |]. split; congruence. }
  destruct (Hnth lo Lo' HLo) as (Lo & HLo0 & Hp1 & Ho1).
  destruct (Hnth hi Hi' HHi) as (Hi & HHi0 & Hp2 & Ho2).
  destruct (Hs lo hi Lo Hi Hlt HLo0 HHi0) as (e & He & H1 & H2).
  exists e. rewrite <- Hp1, <- Hp2, <- Ho1, <- Ho2. auto.
Qed.

(** ** A retuning pass *)

Lemma passInput_ascending held : ascending (passInput held).
Proof. apply sortPitchesAscending_ascending. Qed.

Lemma passInput_length held : length (passInput held) = length held.
Proof.
  unfold passInput, resetJustPitches.
  rewrite sortPitchesAscending_length, length_map. reflexivity.
Qed.

Lemma resetNote_idem N : resetNote (resetNote N) = resetNote N.
Proof. reflexivity. Qed.

Lemma passInput_reset held : map resetNote (passInput held) = passInput held.
Proof.
  unfold passInput, resetJustPitches.
  rewrite <- sortPitchesAscending_map by reflexivity.
  rewrite map_map. reflexivity.
Qed.

(** A pass on notes that only grew from a pass input starts from that same
    input again. *)
Lemma passInput_grown held noteArr :
  Forall2 grown (passInput held) noteArr → passInput noteArr = passInput held.
Proof.
  intros Hg. unfold passInput at 1. unfold resetJustPitches.
  rewrite (Forall2_grown_reset _ _ Hg), passInput_reset.
  apply sortPitchesAscending_id, passInput_ascending.
Qed.

Lemma passOutput_grown mean noteArr :
  Forall2 grown noteArr (passOutput mean noteArr).
Proof.
  unfold passOutput. destruct (mean && _);
    [apply meanAdjust_grown | apply Forall2_grown_refl].
Qed.

Lemma passOutput_settled justSystem mean noteArr :
  settled justSystem noteArr → settled justSystem (passOutput mean noteArr).
Proof.
  intros Hs. unfold passOutput. destruct (mean && _); [| exact Hs].
  eapply settled_same_orders; [| apply meanAdjust_orders | exact Hs].
  apply Forall2_grown_pitches, meanAdjust_grown.
Qed.

Lemma fixedJustify_unfold st :
  fixedJustify st
  = if (1 <? length (heldNotes st))%nat then
      noteArr ← adjustPitches (justSystem st) (passInput (heldNotes st));
      Some (set_heldNotes
              (if meanMode st then meanAdjust noteArr else noteArr) st)
    else Some (set_heldNotes (resetJustPitches (heldNotes st)) st).
Proof.
  destruct st as [i m held js out con].
  unfold fixedJustify, set_heldNotes, passInput.
  cbn [heldNotes justSystem meanMode intensity outlet console].
  unfold resetJustPitches at 1. rewrite length_map.
  destruct (1 <? length held)%nat; [| reflexivity].
  destruct (adjustPitches js _); simpl; [| reflexivity].
  destruct m; reflexivity.
Qed.

(** What [justify] computes: it never throws with a table of twelve, and
    leaves the pass output of the pairwise adjustment of the pass input. *)
Lemma justify_pass st :
  length (justSystem st) = 12%nat →
  ∃ noteArr,
    adjustPitches (justSystem st) (passInput (heldNotes st)) = Some noteArr
    ∧ Forall2 grown (passInput (heldNotes st)) noteArr
    ∧ settled (justSystem st) noteArr
    ∧ justify st
      = Some (set_heldNotes (passOutput (meanMode st) noteArr) st).
Proof.
  intros Hlen.
  destruct (adjustPitches_total (justSystem st) Hlen (passInput (heldNotes st))
              (passInput_ascending _)) as (noteArr & Hadj & Hg & Hs).
  exists noteArr. split; [exact Hadj |]. split; [exact Hg |].
  split; [exact Hs |].
  pose proof (Forall2_length Hg) as Hl. rewrite passInput_length in Hl.
  unfold passOutput. rewrite <- Hl.
  destruct (heldNotes st) as [| N1 [| N2 held]] eqn:Hheld.
  - vm_compute in Hadj. injection Hadj as <-.
    unfold justify. rewrite Hheld. simpl. rewrite andb_false_r.
    destruct st; simpl in *; subst; reflexivity.
  - vm_compute in Hadj. injection Hadj as <-.
    unfold justify. rewrite Hheld, fixedJustify_unfold, Hheld.
    simpl. rewrite andb_false_r. reflexivity.
  - unfold justify. rewrite Hheld, fixedJustify_unfold, Hheld.
    simpl length. change (1 <? S (S (length held)))%nat with true.
    rewrite Hadj, andb_true_r. reflexivity.
Qed.

(** ** The messages of one round of output *)

Lemma noteMsgOut_fold held :
  ∀ st,
    fold_left
      (λ s obj, noteMsgOut (equalPitch obj)
                  (justPitch obj - inject_Z (equalPitch obj))%Q s) held st
    = mkState (intensity st) (meanMode st) (heldNotes st) (justSystem st)
        (outlet st ++ pitchMessages (intensity st) held) (console st).
Proof.
  induction held as [| N held IH]; intros st; simpl.
  - rewrite app_nil_r. destruct st; reflexivity.
  - rewrite IH. unfold noteMsgOut, output; simpl.
    rewrite <- app_assoc. reflexivity.
Qed.

(** [allNoteMsgOut] changes the outlet only: it appends the pitch messages of
    the held notes and the comparison messages. *)
Lemma allNoteMsgOut_outlet st :
  allNoteMsgOut st
  = mkState (intensity st) (meanMode st) (heldNotes st) (justSystem st)
      (outlet st ++ pitchMessages (intensity st) (heldNotes st)
                 ++ comparison (intensity st) (heldNotes st))
      (console st).
Proof.
  unfold allNoteMsgOut. rewrite noteMsgOut_fold.
  unfold justCompOut, offsetListOut, offsetOctaveOut, pitchListsOut, output.
  simpl. rewrite <- !app_assoc. reflexivity.
Qed.

(** ** Idempotence, mean-centering, intensity *)

Lemma set_heldNotes_twice l l' st :
  set_heldNotes l (set_heldNotes l' st) = set_heldNotes l st.
Proof. reflexivity. Qed.

(** A state that a pass has left is left as it is by another pass. *)
Lemma justify_fixpoint st st1 :
  length (justSystem st) = 12%nat →
  justify st = Some st1 → justify st1 = Some st1.
Proof.
  intros Hlen Hst.
  destruct (justify_pass st Hlen) as (noteArr & Hadj & Hg & Hs & Hj).
  rewrite Hj in Hst. injection Hst as <-.
  set (st1 := set_heldNotes (passOutput (meanMode st) noteArr) st).
  destruct (justify_pass st1 Hlen) as (noteArr1 & Hadj1 & _ & _ & Hj1).
  assert (Hin : passInput (heldNotes st1) = passInput (heldNotes st)).
  { apply passInput_grown. simpl.
    eapply Forall2_grown_trans; [exact Hg | apply passOutput_grown]. }
  rewrite Hin in Hadj1. simpl in Hadj1. rewrite Hadj in Hadj1.
  injection Hadj1 as <-. rewrite Hj1. reflexivity.
Qed.

(** After a pass the array is ascending and every pair is settled. *)
Lemma justify_settled st st1 :
  length (justSystem st) = 12%nat → justify st = Some st1 →
  ascending (heldNotes st1) ∧ settled (justSystem st1) (heldNotes st1)
  ∧ justSystem st1 = justSystem st ∧ intensity st1 = intensity st
  ∧ meanMode st1 = meanMode st ∧ outlet st1 = outlet st
  ∧ console st1 = console st
  ∧ Permutation (map equalPitch (heldNotes st1))
                (map equalPitch (heldNotes st)).
Proof.
  intros Hlen Hst.
  destruct (justify_pass st Hlen) as (noteArr & Hadj & Hg & Hs & Hj).
  rewrite Hj in Hst. injection Hst as <-. simpl.
  assert (Hg' : Forall2 grown (passInput (heldNotes st))
                  (passOutput (meanMode st) noteArr))
    by (eapply Forall2_grown_trans; [exact Hg | apply passOutput_grown]).
  split; [eapply Forall2_grown_ascending;
          [exact Hg' | apply passInput_ascending] |].
  split; [apply passOutput_settled; exact Hs |].
  repeat (split; [reflexivity |]).
  rewrite (Forall2_grown_pitches _ _ Hg').
  unfold passInput. rewrite (sortPitchesAscending_perm _).
  unfold resetJustPitches. rewrite map_map. reflexivity.
Qed.

(** C7.  A retuning pass never fails, and a second pass right after it leaves
    every held note (hence every [justPitch]) exactly as the first pass left
    it. *)
Theorem justify_idempotent :
  ∀ st, length (justSystem st) = 12%nat →
    ∃ st1, justify st = Some st1 ∧ justify st1 = Some st1.
Proof.
  intros st Hlen.
  destruct (justify_pass st Hlen) as (noteArr & _ & _ & _ & Hj).
  eexists. split; [exact Hj |].
  eapply justify_fixpoint; [exact Hlen | exact Hj].
Qed.

(** C3.  With [meanMode] on and at least one held note, a retuning pass
    leaves the same notes (by [equalPitch]) with the total of the
    [justPitch] values equal to the total of the [equalPitch] values, in
    exact rational arithmetic. *)
Theorem justify_mean_totals :
  ∀ st, length (justSystem st) = 12%nat →
    meanMode st = true → (1 ≤ length (heldNotes st))%nat →
    ∃ st1, justify st = Some st1
      ∧ length (heldNotes st1) = length (heldNotes st)
      ∧ Permutation (map equalPitch (heldNotes st1))
                    (map equalPitch (heldNotes st))
      ∧ (justTotal (heldNotes st1) == inject_Z (equalTotal (heldNotes st1)))%Q.
Proof.
  intros st Hlen Hmean Hn.
  destruct (justify_pass st Hlen) as (noteArr & Hadj & Hg & Hs & Hj).
  destruct (justify_settled st _ Hlen Hj) as (_ & _ & _ & _ & _ & _ & _ & Hperm).
  eexists. split; [exact Hj |].
  split; [apply (Permutation_length) in Hperm;
          rewrite !length_map in Hperm; exact Hperm |].
  split; [exact Hperm |].
  simpl. rewrite Hmean. unfold passOutput. simpl.
  pose proof (Forall2_length Hg) as Hl. rewrite passInput_length in Hl.
  destruct (heldNotes st) as [| N1 [| N2 held]] eqn:Hheld.
  - simpl in Hn. lia.
  - vm_compute in Hadj. injection Hadj as <-. simpl.
    unfold justTotal, equalTotal; simpl.
    rewrite inject_Z_plus. reflexivity.
  - rewrite <- Hl. simpl length.
    change (1 <? S (S (length held)))%nat with true. cbv iota.
    apply meanAdjust_totals. intros ->. discriminate Hl.
Qed.

(** C4.  On a chord that a retuning pass has left, [setIntensity] does not
    throw, leaves every held note as it is, and emits the pitch messages of
    the held notes with their bends scaled by the new intensity: the
    pairwise adjustment that it runs again finds every pair settled. *)
Theorem setIntensity_keeps_justPitch :
  ∀ val st0 st, length (justSystem st0) = 12%nat → justify st0 = Some st →
    ∃ st1, setIntensity val st = Some st1
      ∧ heldNotes st1 = heldNotes st
      ∧ intensity st1 = val
      ∧ outlet st1 = outlet st ++ pitchMessages val (heldNotes st)
                               ++ comparison val (heldNotes st).
Proof.
  intros val st0 st Hlen Hj.
  destruct (justify_settled st0 st Hlen Hj) as (_ & Hs & _).
  unfold setIntensity. simpl.
  rewrite (adjustPitches_settled _ _ Hs). simpl.
  eexists. split; [reflexivity |].
  rewrite allNoteMsgOut_outlet. simpl. auto.
Qed.

(** ** Configuration commands *)

(** C5 (as stated, refuted).  With 60 and 64 held under mean-centering,
    [setMeanMode(false)] leaves the two [justPitch] values at 60.07 and 63.93;
    a retuning pass under the new mode would put them at 60 and 63.86. *)
Lemma setMeanMode_does_not_retune :
  ∃ st st1,
    run majorThird loaded = Some st
    ∧ heldNotes (setMeanMode (ArgBool false) st) = heldNotes st
    ∧ Forall2 Qeq (map justPitch (heldNotes (setMeanMode (ArgBool false) st)))
                  [60.07; 63.93]%Q
    ∧ justify (setMeanMode (ArgBool false) st) = Some st1
    ∧ Forall2 Qeq (map justPitch (heldNotes st1)) [60; 63.86]%Q
    ∧ ¬ Forall2 Qeq (map justPitch (heldNotes st1))
          (map justPitch (heldNotes (setMeanMode (ArgBool false) st))).
Proof.
  do 2 eexists. split; [vm_compute; reflexivity |].
  split; [reflexivity |].
  split; [repeat constructor |].
  split; [vm_compute; reflexivity |].
  split; [repeat constructor |].
  intros H. apply Forall2_cons_1 in H as [H _]. vm_compute in H. discriminate.
Qed.

(** C5 (amended).  [setMeanMode] with an argument that stands for a Boolean
    only sets [meanMode]: the held notes, the table, the intensity, the
    outlet and the console stay as they are, and no retuning pass runs. *)
Theorem setMeanMode_sets_flag_only :
  ∀ arg b st, argBool arg = Some b →
    setMeanMode arg st = set_meanMode b st
    ∧ meanMode (setMeanMode arg st) = b
    ∧ heldNotes (setMeanMode arg st) = heldNotes st
    ∧ outlet (setMeanMode arg st) = outlet st
    ∧ console (setMeanMode arg st) = console st.
Proof.
  intros arg b st Harg.
  assert (H : setMeanMode arg st = set_meanMode b st).
  { destruct arg as [[] | z]; simpl in Harg.
    - injection Harg as <-. reflexivity.
    - injection Harg as <-. reflexivity.
    - destruct z as [| [| |] |]; try discriminate;
        injection Harg as <-; reflexivity. }
  rewrite H. simpl. auto.
Qed.

Lemma setMeanMode_sets_flag_only_witness :
  argBool (ArgInt 0) = Some false
  ∧ length (heldNotes thirdTuned) = 2%nat
  ∧ setMeanMode (ArgInt 0) thirdTuned = set_meanMode false thirdTuned
  ∧ meanMode (setMeanMode (ArgInt 0) thirdTuned) = false
  ∧ heldNotes (setMeanMode (ArgInt 0) thirdTuned) = heldNotes thirdTuned
  ∧ outlet (setMeanMode (ArgInt 0) thirdTuned) = outlet thirdTuned
  ∧ console (setMeanMode (ArgInt 0) thirdTuned) = console thirdTuned.
Proof.
  split; [reflexivity |]. split; [reflexivity |].
  apply (setMeanMode_sets_flag_only (ArgInt 0) false thirdTuned). reflexivity.
Defined.

(** C6 (as stated, refuted).  With 60 and 70 held, [setLimit(7)] runs a
    retuning pass that moves the upper note from 69.96 to 69.69 (before
    mean-centering), but nothing is sent to the outlet: no pitch message is
    emitted for the two held notes. *)
Lemma setLimit_emits_nothing :
  ∃ st st1,
    run minorSeventh loaded = Some st
    ∧ setLimit 7 st = Some st1
    ∧ map equalPitch (heldNotes st1) = [60; 70]
    ∧ Forall2 Qeq (map justPitch (heldNotes st)) [60.02; 69.98]%Q
    ∧ Forall2 Qeq (map justPitch (heldNotes st1)) [60.155; 69.845]%Q
    ∧ outlet st1 = outlet st.
Proof.
  do 2 eexists. split; [vm_compute; reflexivity |].
  split; [vm_compute; reflexivity |].
  split; [reflexivity |].
  split; [repeat constructor |].
  split; [repeat constructor |].
  reflexivity.
Qed.

(** What a note event does: the pass on the array that [noteHandler] leaves,
    then one round of output and [done]. *)
Lemma noteIn_pass pitch velocity st :
  length (justSystem st) = 12%nat →
  ∃ st1,
    justify (set_heldNotes (noteHandler pitch velocity (heldNotes st))
               (noteCtrlOut pitch velocity st)) = Some st1
    ∧ noteIn pitch velocity st = Some (output Done (allNoteMsgOut st1))
    ∧ intensity st1 = intensity st
    ∧ outlet st1 = outlet st ++ [NoteControl pitch velocity].
Proof.
  intros Hlen.
  set (st0 := set_heldNotes (noteHandler pitch velocity (heldNotes st))
                (noteCtrlOut pitch velocity st)).
  destruct (justify_pass st0 Hlen) as (noteArr & _ & _ & _ & Hj).
  eexists. split; [exact Hj |].
  change (noteIn pitch velocity st)
    with (st3 ← justify st0; Some (output Done (allNoteMsgOut st3))).
  rewrite Hj. simpl. auto.
Qed.

(** C6 (amended).  A note event does not throw, and after its retuning pass
    it emits, for every held note in array order, a pitch message pairing
    [equalPitch] with [(justPitch - equalPitch) * intensity]; the messages
    stand between the note-control message of the event and the comparison
    messages and [done]. *)
Theorem noteIn_emits_pitch_messages :
  ∀ pitch velocity st, length (justSystem st) = 12%nat →
    ∃ st1 st2,
      justify (set_heldNotes (noteHandler pitch velocity (heldNotes st))
                 (noteCtrlOut pitch velocity st)) = Some st1
      ∧ noteIn pitch velocity st = Some st2
      ∧ heldNotes st2 = heldNotes st1
      ∧ outlet st2
        = outlet st ++ [NoteControl pitch velocity]
          ++ pitchMessages (intensity st) (heldNotes st2)
          ++ comparison (intensity st) (heldNotes st2) ++ [Done].
Proof.
  intros pitch velocity st Hlen.
  destruct (noteIn_pass pitch velocity st Hlen) as (st1 & Hj & Hin & Hi & Ho).
  exists st1. eexists. split; [exact Hj |]. split; [exact Hin |].
  rewrite allNoteMsgOut_outlet. simpl. split; [reflexivity |].
  rewrite Hi, Ho, <- !app_assoc. reflexivity.
Qed.

Lemma noteIn_emits_pitch_messages_witness :
  length (justSystem thirdTuned) = 12%nat
  ∧ length (heldNotes thirdTuned) = 2%nat
  ∧ ∃ st1 st2,
      justify (set_heldNotes (noteHandler 67 100 (heldNotes thirdTuned))
                 (noteCtrlOut 67 100 thirdTuned)) = Some st1
      ∧ noteIn 67 100 thirdTuned = Some st2
      ∧ heldNotes st2 = heldNotes st1
      ∧ outlet st2
        = outlet thirdTuned ++ [NoteControl 67 100]
          ++ pitchMessages (intensity thirdTuned) (heldNotes st2)
          ++ comparison (intensity thirdTuned) (heldNotes st2) ++ [Done].
Proof.
  split; [reflexivity |]. split; [reflexivity |].
  apply (noteIn_emits_pitch_messages 67 100 thirdTuned). reflexivity.
Defined.

(** C8 (as stated, refuted).  60 and 64 are held and [meanMode] has been
    switched off since the last pass, so the two [justPitch] values are still
    60.07 and 63.93.  [setLimit(9)] posts its error and keeps the table, but
    the pass it runs all the same moves the notes to 60 and 63.86. *)
Lemma setLimit_invalid_changes_justPitch :
  ∃ st st1,
    run meanThenFixed loaded = Some st
    ∧ setLimit 9 st = Some st1
    ∧ console st1 = console st ++ [TuningNotAvailable]
    ∧ justSystem st1 = justSystem st
    ∧ Forall2 Qeq (map justPitch (heldNotes st)) [60.07; 63.93]%Q
    ∧ Forall2 Qeq (map justPitch (heldNotes st1)) [60; 63.86]%Q
    ∧ ¬ Forall2 Qeq (map justPitch (heldNotes st1))
                    (map justPitch (heldNotes st)).
Proof.
  do 2 eexists. split; [vm_compute; reflexivity |].
  split; [vm_compute; reflexivity |].
  split; [reflexivity |]. split; [reflexivity |].
  split; [repeat constructor |].
  split; [repeat constructor |].
  intros H. apply Forall2_cons_1 in H as [H _]. vm_compute in H. discriminate.
Qed.

(** C8 (amended).  [setLimit] with an integer other than 5, 7, 11 and 13
    does not throw, posts the error and keeps the table, the intensity, the
    mean mode and the outlet; it runs a retuning pass all the same, which
    leaves the held notes as they are whenever they are as a pass under the
    current configuration left them. *)
Theorem setLimit_invalid :
  ∀ val st, validLimit val = false → length (justSystem st) = 12%nat →
    ∃ st1, setLimit val st = Some st1
      ∧ console st1 = console st ++ [TuningNotAvailable]
      ∧ justSystem st1 = justSystem st
      ∧ intensity st1 = intensity st
      ∧ meanMode st1 = meanMode st
      ∧ outlet st1 = outlet st
      ∧ justify (postError TuningNotAvailable st) = Some st1
      ∧ (justify st = Some st → heldNotes st1 = heldNotes st).
Proof.
  intros val st Hval Hlen.
  assert (Hset : setLimit val st = justify (postError TuningNotAvailable st)).
  { unfold validLimit in Hval.
    apply orb_false_elim in Hval as [Hval H13].
    apply orb_false_elim in Hval as [Hval H11].
    apply orb_false_elim in Hval as [H5 H7].
    apply Z.eqb_neq in H5, H7, H11, H13.
    unfold setLimit.
    destruct val as [| p |]; try reflexivity.
    repeat (match goal with q : positive |- _ =>
              destruct q; try reflexivity end); lia. }
  set (st0 := postError TuningNotAvailable st) in *.
  destruct (justify_pass st0 Hlen) as (noteArr & Hadj & _ & _ & Hj).
  eexists. split; [rewrite Hset; exact Hj |].
  simpl. repeat (split; [reflexivity |]). split; [exact Hj |].
  intros Hfix.
  destruct (justify_pass st Hlen) as (noteArr' & Hadj' & _ & _ & Hj').
  simpl in Hadj. rewrite Hadj' in Hadj. injection Hadj as <-.
  rewrite Hj' in Hfix. injection Hfix as Hfix.
  rewrite <- Hfix at 2. reflexivity.
Qed.

Lemma setLimit_invalid_witness :
  validLimit 9 = false ∧ length (justSystem thirdTuned) = 12%nat
  ∧ justify thirdTuned = Some thirdTuned
  ∧ ∃ st1, setLimit 9 thirdTuned = Some st1
      ∧ console st1 = console thirdTuned ++ [TuningNotAvailable]
      ∧ justSystem st1 = justSystem thirdTuned
      ∧ heldNotes st1 = heldNotes thirdTuned.
Proof.
  assert (Hfix : justify thirdTuned = Some thirdTuned)
    by (vm_compute; reflexivity).
  split; [reflexivity |]. split; [reflexivity |]. split; [exact Hfix |].
  destruct (setLimit_invalid 9 thirdTuned)
    as (st1 & H1 & H2 & H3 & _ & _ & _ & _ & H4);
    [reflexivity | reflexivity |].
  exists st1. auto.
Defined.

(** ** The array after a note event *)

Lemma pitchMessages_lookup i held k N :
  held !! k = Some N →
  pitchMessages i held !! k = Some (NoteMessage (equalPitch N) (bend i N)).
Proof.
  intros HN. unfold pitchMessages.
  change (map ?f held) with (f <$> held).
  rewrite list_lookup_fmap, HN. reflexivity.
Qed.

(** C10.  A note event does not throw and leaves the array [heldNotes]
    itself ascending by [equalPitch] (with two notes or more, and trivially
    with fewer).  The pitch messages and the lists of the comparison messages
    are read off that array front to back, so they come in ascending order of
    pitch, and a later note-off scans that same ascending array from its
    front. *)
Theorem noteIn_leaves_ascending :
  ∀ pitch velocity st, length (justSystem st) = 12%nat →
    ∃ st1, noteIn pitch velocity st = Some st1
      ∧ ascending (heldNotes st1)
      ∧ outlet st1
        = outlet st ++ [NoteControl pitch velocity]
          ++ pitchMessages (intensity st) (heldNotes st1)
          ++ comparison (intensity st) (heldNotes st1) ++ [Done]
      ∧ (∀ k N, heldNotes st1 !! k = Some N →
           pitchMessages (intensity st) (heldNotes st1) !! k
           = Some (NoteMessage (equalPitch N) (bend (intensity st) N)))
      ∧ (∀ pitch' velocity', velocity' ≤ 0 →
           noteHandler pitch' velocity' (heldNotes st1)
           = noteOffScan pitch' (heldNotes st1)).
Proof.
  intros pitch velocity st Hlen.
  destruct (noteIn_pass pitch velocity st Hlen) as (st1 & Hj & Hin & Hi & Ho).
  eexists. split; [exact Hin |].
  rewrite allNoteMsgOut_outlet. simpl.
  split; [eapply justify_settled; [| exact Hj]; exact Hlen |].
  split; [rewrite Hi, Ho, <- !app_assoc; reflexivity |].
  split; [intros k N; apply pitchMessages_lookup |].
  intros pitch' velocity'. apply noteHandler_off.
Qed.

Lemma noteIn_leaves_ascending_witness :
  length (justSystem sixtyFourHeld) = 12%nat
  ∧ map equalPitch (heldNotes sixtyFourHeld) = [64]
  ∧ ∃ st1, noteIn 60 100 sixtyFourHeld = Some st1
      ∧ length (heldNotes st1) = 2%nat
      ∧ map equalPitch (heldNotes st1) = [60; 64]
      ∧ Forall2 Qeq (map justPitch (heldNotes st1)) [60.07; 63.93]%Q
      ∧ ascending (heldNotes st1)
      ∧ outlet st1
        = outlet sixtyFourHeld ++ [NoteControl 60 100]
          ++ pitchMessages (intensity sixtyFourHeld) (heldNotes st1)
          ++ comparison (intensity sixtyFourHeld) (heldNotes st1) ++ [Done]
      ∧ map (λ m, match m with NoteMessage pitch _ => pitch | _ => 0 end)
            (pitchMessages (intensity sixtyFourHeld) (heldNotes st1))
        = [60; 64]
      ∧ noteHandler 64 0 (heldNotes st1) = noteOffScan 64 (heldNotes st1).
Proof.
  split; [reflexivity |]. split; [reflexivity |].
  destruct (noteIn_leaves_ascending 60 100 sixtyFourHeld eq_refl)
    as (st1 & Hin & Hasc & Hout & _ & Hoff).
  exists st1. split; [exact Hin |].
  assert (Hheld : heldNotes st1
                  = heldNotes (default loaded (noteIn 60 100 sixtyFourHeld)))
    by (rewrite Hin; reflexivity).
  split; [rewrite Hheld; reflexivity |].
  split; [rewrite Hheld; reflexivity |].
  split; [rewrite Hheld; repeat constructor |].
  split; [exact Hasc |]. split; [exact Hout |].
  split; [rewrite Hheld; reflexivity |].
  apply Hoff. lia.
Defined.

(** Insertion order is lost: 64 played before 60 ends up behind it. *)
Example noteIn_reorders :
  (map equalPitch ∘ heldNotes) <$> run [EvNoteIn 64 100; EvNoteIn 60 100] loaded
  = Some [60; 64].
Proof. reflexivity. Qed.

(** ** Every run *)

Lemma justify_wellTuned st :
  In (justSystem st) limits →
  ∃ st1, justify st = Some st1 ∧ wellTuned st1
    ∧ justSystem st1 = justSystem st.
Proof.
  intros Hin. pose proof (limits_length _ Hin) as Hlen.
  destruct (justify_pass st Hlen) as (noteArr & _ & _ & _ & Hj).
  eexists. split; [exact Hj |].
  destruct (justify_settled st _ Hlen Hj) as (Ha & Hs & Hjs & _).
  unfold wellTuned. rewrite Hjs. auto.
Qed.

Lemma noteCtrlOut_fold held :
  ∀ st, fold_left (λ s obj, noteCtrlOut (equalPitch obj) 0 s) held st
        = mkState (intensity st) (meanMode st) (heldNotes st) (justSystem st)
            (outlet st ++ map (λ N, NoteControl (equalPitch N) 0) held)
            (console st).
Proof.
  induction held as [| N held IH]; intros st; simpl.
  - rewrite app_nil_r. destruct st; reflexivity.
  - rewrite IH. simpl. rewrite <- app_assoc. reflexivity.
Qed.

(** No event throws, and every event keeps the variables well tuned. *)
Lemma handle_wellTuned e st :
  wellTuned st → ∃ st1, handle e st = Some st1 ∧ wellTuned st1.
Proof.
  intros (Hin & Hasc & Hset).
  pose proof (limits_length _ Hin) as Hlen.
  destruct e as [p v | val | b | val |]; simpl.
  - destruct (noteIn_pass p v st Hlen) as (st1 & Hj & Hnote & _).
    eexists. split; [exact Hnote |].
    destruct (justify_wellTuned
                (set_heldNotes (noteHandler p v (heldNotes st))
                   (noteCtrlOut p v st)) Hin) as (st1' & Hj' & Hw & _).
    rewrite Hj in Hj'. injection Hj' as <-.
    rewrite allNoteMsgOut_outlet. exact Hw.
  - unfold setLimit.
    match goal with |- ∃ st1, justify ?s = _ ∧ _ =>
      destruct (justify_wellTuned s) as (st1 & Hj & Hw & _) end.
    { destruct val as [| p |]; simpl; try exact Hin.
      repeat (match goal with q : positive |- _ =>
                destruct q; simpl; try exact Hin end);
        unfold limits; simpl; auto. }
    exists st1. auto.
  - eexists. split; [reflexivity |].
    unfold setMeanMode, wellTuned.
    destruct (looseEqBool b false); [simpl; auto |].
    destruct (looseEqBool b true); simpl; auto.
  - unfold setIntensity. simpl.
    rewrite (adjustPitches_settled _ _ Hset). simpl.
    eexists. split; [reflexivity |].
    rewrite allNoteMsgOut_outlet. unfold wellTuned. simpl. auto.
  - eexists. split; [reflexivity |].
    unfold allNotesOff. rewrite noteCtrlOut_fold.
    unfold wellTuned. simpl.
    split; [exact Hin |]. split; [constructor |].
    intros lo hi Lo Hi _ HLo. discriminate.
Qed.

Lemma loaded_wellTuned : wellTuned loaded.
Proof.
  unfold wellTuned, loaded. simpl.
  split; [auto |]. split; [constructor |].
  intros lo hi Lo Hi _ HLo. discriminate.
Qed.

(** Every sequence of events runs to its end from a well-tuned state, in
    particular from the state in which the program is loaded: the program
    never throws. *)
Lemma run_wellTuned es :
  ∀ st, wellTuned st → ∃ st1, run es st = Some st1 ∧ wellTuned st1.
Proof.
  induction es as [| e es IH]; intros st Hw; simpl.
  - eauto.
  - destruct (handle_wellTuned e st Hw) as (st1 & -> & Hw1). simpl.
    apply IH. exact Hw1.
Qed.

Corollary run_never_throws es : ∃ st, run es loaded = Some st.
Proof.
  destruct (run_wellTuned es loaded loaded_wellTuned) as (st & Hrun & _).
  eauto.
Qed.

(** In every state the program can reach, [setIntensity] keeps the held
    notes. *)
Lemma setIntensity_after_run es st val :
  run es loaded = Some st →
  ∃ st1, setIntensity val st = Some st1 ∧ heldNotes st1 = heldNotes st.
Proof.
  intros Hrun.
  destruct (run_wellTuned es loaded loaded_wellTuned) as (st' & Hrun' & Hw).
  rewrite Hrun in Hrun'. injection Hrun' as <-.
  destruct Hw as (_ & _ & Hset).
  unfold setIntensity. simpl.
  rewrite (adjustPitches_settled _ _ Hset). simpl.
  eexists. split; [reflexivity |].
  rewrite allNoteMsgOut_outlet. reflexivity.
Qed.

(** ** The theorems at concrete chords *)

Lemma adjustPitches_refines_spec_witness :
  length fiveLimit = 12%nat ∧ ascending majorTriad
  ∧ adjustPitches fiveLimit majorTriad
    = Some (specPairwise fiveLimit majorTriad).
Proof.
  assert (Hasc : ascending majorTriad)
    by (unfold ascending; simpl; repeat constructor; lia).
  split; [reflexivity |]. split; [exact Hasc |].
  apply (adjustPitches_refines_spec fiveLimit eq_refl majorTriad Hasc).
Defined.

Lemma justify_mean_totals_witness :
  length (justSystem (set_heldNotes majorTriad loaded)) = 12%nat
  ∧ meanMode (set_heldNotes majorTriad loaded) = true
  ∧ (1 ≤ length (heldNotes (set_heldNotes majorTriad loaded)))%nat
  ∧ ∃ st1, justify (set_heldNotes majorTriad loaded) = Some st1
      ∧ (justTotal (heldNotes st1) == inject_Z (equalTotal (heldNotes st1)))%Q.
Proof.
  split; [reflexivity |]. split; [reflexivity |]. split; [simpl; lia |].
  destruct (justify_mean_totals (set_heldNotes majorTriad loaded))
    as (st1 & H1 & _ & _ & H2); [reflexivity | reflexivity | simpl; lia |].
  exists st1. auto.
Defined.

Lemma justify_idempotent_witness :
  length (justSystem (set_heldNotes majorTriad loaded)) = 12%nat
  ∧ ∃ st1, justify (set_heldNotes majorTriad loaded) = Some st1
      ∧ justify st1 = Some st1.
Proof.
  split; [reflexivity |].
  apply (justify_idempotent (set_heldNotes majorTriad loaded)). reflexivity.
Defined.

Lemma setIntensity_keeps_justPitch_witness :
  length (justSystem thirdTuned) = 12%nat
  ∧ justify thirdTuned = Some thirdTuned
  ∧ ∃ st1, setIntensity 0.5 thirdTuned = Some st1
      ∧ heldNotes st1 = heldNotes thirdTuned
      ∧ intensity st1 = 0.5%Q
      ∧ outlet st1 = outlet thirdTuned
                     ++ pitchMessages 0.5 (heldNotes thirdTuned)
                     ++ comparison 0.5 (heldNotes thirdTuned).
Proof.
  split; [reflexivity |]. split; [vm_compute; reflexivity |].
  apply (setIntensity_keeps_justPitch 0.5 thirdTuned thirdTuned);
    [reflexivity | vm_compute; reflexivity].
Defined.

(** The major third of the specification: without mean-centering the upper
    note is bent by -0.14, with it the two notes by +0.07 and -0.07, times
    the intensity 0.75. *)
Example majorThird_bends :
  Forall2 Qeq (map (bend 1) (heldNotes thirdTuned)) [0.07; -0.07]%Q
  ∧ Forall2 Qeq (map (bend 0.75) (heldNotes thirdTuned)) [0.0525; -0.0525]%Q
  ∧ ∃ st, justify (set_meanMode false thirdTuned) = Some st
      ∧ Forall2 Qeq (map (bend 1) (heldNotes st)) [0; -0.14]%Q.
Proof.
  split; [repeat constructor |]. split; [repeat constructor |].
  eexists. split; [vm_compute; reflexivity |]. repeat constructor.
Qed.

(** * Further properties of the program *)

(** ** Note-off *)

Lemma noteOffScan_absent pitch held :
  Forall (λ N, equalPitch N ≠ pitch) held → noteOffScan pitch held = held.
Proof.
  induction 1 as [| M l HM _ IH]; simpl; [reflexivity |].
  replace (pitch =? equalPitch M) with false
    by (symmetry; apply Z.eqb_neq; congruence).
  congruence.
Qed.

(** A note-off of a pitch that no held note has leaves the array as it is:
    the loop finds no match and removes nothing. *)
Theorem noteHandler_off_absent :
  ∀ pitch velocity held,
    velocity ≤ 0 → Forall (λ N, equalPitch N ≠ pitch) held →
    noteHandler pitch velocity held = held.
Proof.
  intros pitch velocity held Hv Habs.
  rewrite noteHandler_off by exact Hv. apply noteOffScan_absent, Habs.
Qed.

Lemma noteHandler_off_absent_witness :
  0 ≤ 0 ∧ Forall (λ N, equalPitch N ≠ 61) majorTriad
  ∧ noteHandler 61 0 majorTriad = majorTriad.
Proof.
  assert (Habs : Forall (λ N, equalPitch N ≠ 61) majorTriad)
    by (repeat constructor; simpl; lia).
  split; [lia |]. split; [exact Habs |].
  apply (noteHandler_off_absent 61 0 majorTriad); [lia | exact Habs].
Defined.

Lemma noteOffScan_others pitch :
  ∀ held,
    otherPitches pitch (noteOffScan pitch held) = otherPitches pitch held
    ∧ (length (noteOffScan pitch held) ≤ length held)%nat
    ∧ (Exists (λ N, equalPitch N = pitch) held →
       (length (noteOffScan pitch held) < length held)%nat).
Proof.
  induction held as [| N | N M l IH1 IH2] using noteOffScan_ind.
  - simpl. split; [reflexivity |]. split; [lia |]. intros H. inversion H.
  - simpl. destruct (pitch =? equalPitch N) eqn:HN.
    + apply Z.eqb_eq in HN. unfold otherPitches. simpl.
      rewrite <- HN, Z.eqb_refl. simpl.
      split; [reflexivity |]. split; [lia | intros _; lia].
    + split; [reflexivity |]. simpl. split; [lia |].
      intros H. apply Z.eqb_neq in HN.
      inversion H as [? ? H0 | ? ? H0]; subst; [congruence | inversion H0].
  - destruct IH1 as (IH1a & IH1b & _). destruct IH2 as (IH2a & IH2b & IH2c).
    assert (Hscan : noteOffScan pitch (N :: M :: l)
                    = if pitch =? equalPitch N then M :: noteOffScan pitch l
                      else N :: noteOffScan pitch (M :: l)) by reflexivity.
    assert (Hcons : ∀ a k, otherPitches pitch (a :: k)
                    = if negb (equalPitch a =? pitch)
                      then a :: otherPitches pitch k
                      else otherPitches pitch k) by reflexivity.
    rewrite Hscan. destruct (pitch =? equalPitch N) eqn:HN.
    + apply Z.eqb_eq in HN.
      split.
      { rewrite (Hcons N), (Hcons M), (Hcons M), IH1a.
        rewrite <- HN, Z.eqb_refl. reflexivity. }
      simpl. split; [lia | intros _; lia].
    + apply Z.eqb_neq in HN.
      split.
      { rewrite (Hcons N), (Hcons N (M :: l)), IH2a. reflexivity. }
      simpl length. simpl length in IH2b, IH2c. split; [lia |].
      intros H. inversion H as [? ? H0 | ? ? H0]; subst; [congruence |].
      specialize (IH2c H0). lia.
Qed.

(** A note-off never touches the notes of other pitches: they all stay, in
    their order.  It never adds a note, and it removes at least one note
    when the pitch is held. *)
Theorem noteHandler_off_others :
  ∀ pitch velocity held, velocity ≤ 0 →
    otherPitches pitch (noteHandler pitch velocity held)
    = otherPitches pitch held
    ∧ (length (noteHandler pitch velocity held) ≤ length held)%nat
    ∧ (Exists (λ N, equalPitch N = pitch) held →
       (length (noteHandler pitch velocity held) < length held)%nat).
Proof.
  intros pitch velocity held Hv.
  rewrite noteHandler_off by exact Hv. apply noteOffScan_others.
Qed.

Lemma noteHandler_off_others_witness :
  0 ≤ 0 ∧ Exists (λ N, equalPitch N = 64) majorTriad
  ∧ otherPitches 64 (noteHandler 64 0 majorTriad) = otherPitches 64 majorTriad
  ∧ (length (noteHandler 64 0 majorTriad) < length majorTriad)%nat.
Proof.
  assert (Hheld : Exists (λ N, equalPitch N = 64) majorTriad)
    by (apply Exists_cons_tl, Exists_cons_hd; reflexivity).
  split; [lia |]. split; [exact Hheld |].
  destruct (noteHandler_off_others 64 0 majorTriad) as (H1 & _ & H2); [lia |].
  split; [exact H1 | exact (H2 Hheld)].
Defined.

(** ** Sorting *)

(** [sortPitchesAscending] returns the notes it is given, every one once, in
    ascending order of [equalPitch]; an array that is ascending already is
    returned as it is. *)
Theorem sortPitchesAscending_sorts :
  ∀ noteArr,
    Permutation (sortPitchesAscending noteArr) noteArr
    ∧ ascending (sortPitchesAscending noteArr)
    ∧ sortPitchesAscending (sortPitchesAscending noteArr)
      = sortPitchesAscending noteArr.
Proof.
  intros noteArr. split; [apply sortPitchesAscending_perm |].
  split; [apply sortPitchesAscending_ascending |].
  apply sortPitchesAscending_id, sortPitchesAscending_ascending.
Qed.

(** ** Configuration *)

(** [setMeanMode] with an integer other than 0 and 1 posts the error and
    changes nothing else: the mode, the held notes and the outlet stay as
    they were. *)
Theorem setMeanMode_invalid :
  ∀ z st, z ≠ 0 → z ≠ 1 →
    setMeanMode (ArgInt z) st = postError NotValid st
    ∧ meanMode (setMeanMode (ArgInt z) st) = meanMode st
    ∧ console (setMeanMode (ArgInt z) st) = console st ++ [NotValid]
    ∧ heldNotes (setMeanMode (ArgInt z) st) = heldNotes st
    ∧ outlet (setMeanMode (ArgInt z) st) = outlet st.
Proof.
  intros z st H0 H1.
  assert (H : setMeanMode (ArgInt z) st = postError NotValid st).
  { unfold setMeanMode, looseEqBool.
    replace (z =? 0) with false by (symmetry; apply Z.eqb_neq; exact H0).
    replace (z =? 1) with false by (symmetry; apply Z.eqb_neq; exact H1).
    reflexivity. }
  rewrite H. simpl. auto.
Qed.

Lemma setMeanMode_invalid_witness :
  2 ≠ 0 ∧ 2 ≠ 1
  ∧ setMeanMode (ArgInt 2) thirdTuned = postError NotValid thirdTuned
  ∧ meanMode (setMeanMode (ArgInt 2) thirdTuned) = meanMode thirdTuned.
Proof.
  split; [lia |]. split; [lia |].
  destruct (setMeanMode_invalid 2 thirdTuned) as (H1 & H2 & _); [lia | lia |].
  auto.
Defined.

(** ** The unused helpers *)

(** [clamp] with [min <= max] returns a value of the range, and the receiver
    itself when it lies in the range. *)
Theorem clamp_range :
  ∀ this min max, (min <= max)%Q →
    (min <= clamp this min max)%Q ∧ (clamp this min max <= max)%Q
    ∧ ((min <= this)%Q → (this <= max)%Q → clamp this min max == this).
Proof.
  intros this min max Hmm. unfold clamp.
  split; [apply Q.min_glb; [apply Q.le_max_r | exact Hmm] |].
  split; [apply Q.le_min_r |].
  intros H1 H2.
  rewrite (Q.max_l this min) by exact H1.
  apply Q.min_l. exact H2.
Qed.

Lemma clamp_range_witness :
  (0 <= 1)%Q ∧ (0 <= clamp 1.5 0 1)%Q ∧ (clamp 1.5 0 1 <= 1)%Q.
Proof.
  assert (H : (0 <= 1)%Q) by (unfold Qle; simpl; lia).
  split; [exact H |].
  destruct (clamp_range 1.5 0 1 H) as (H1 & H2 & _). auto.
Defined.

(** [modCorrect] maps a remainder in [0, 12) into (-0.5, 11.5], changing it by
    nothing or by a whole octave. *)
Theorem modCorrect_range :
  ∀ num, (0 <= num)%Q → (num < 12)%Q →
    (-0.5 < modCorrect num)%Q ∧ (modCorrect num <= 11.5)%Q
    ∧ (modCorrect num == num ∨ modCorrect num == num - 12).
Proof.
  intros num H0 H12. unfold modCorrect.
  destruct (Qlt_le_dec 11.5 num) as [Hgt | Hle].
  - split; [| split; [| right; reflexivity]].
    + apply Qlt_minus_iff. apply Qlt_minus_iff in Hgt.
      eapply Qlt_le_trans; [exact Hgt |]. apply Qle_lteq. right. ring.
    + apply Qlt_le_weak. apply Qlt_minus_iff. apply Qlt_minus_iff in H12.
      eapply Qlt_trans; [exact H12 |].
      apply Qlt_minus_iff. ring_simplify. reflexivity.
  - split; [| split; [exact Hle | left; reflexivity]].
    eapply Qlt_le_trans; [| exact H0]. reflexivity.
Qed.

Lemma modCorrect_range_witness :
  (0 <= 11.9)%Q ∧ (11.9 < 12)%Q ∧ (modCorrect 11.9 == -0.1)%Q.
Proof.
  split; [unfold Qle; simpl; lia |]. split; [reflexivity |].
  destruct (modCorrect_range 11.9) as (_ & _ & [H | H]);
    [unfold Qle; simpl; lia | reflexivity | | ].
  - reflexivity.
  - rewrite H. reflexivity.
Defined.

(** ** The pairwise adjustment on any array *)

(** One turn of the inner loop that does not throw writes the two notes of
    the pair only, and lets notes only grow. *)
Lemma adjustPair_writes justSystem lo hi noteArr noteArr' :
  adjustPair justSystem lo hi noteArr = Some noteArr' → lo ≠ hi →
  Forall2 grown noteArr noteArr'
  ∧ ∀ k, k ≠ lo → k ≠ hi → noteArr' !! k = noteArr !! k.
Proof.
  intros Hadj Hne. unfold adjustPair in Hadj.
  destruct (noteArr !! lo) as [Lo |] eqn:HLo; [| discriminate].
  destruct (noteArr !! hi) as [Hi |] eqn:HHi; [| discriminate].
  simpl in Hadj.
  destruct (justSystemAt justSystem _) as [e |]; [| discriminate].
  simpl in Hadj.
  destruct ((JustObj.order e >? order Hi) || (JustObj.order e >? order Lo)).
  - destruct (createInterval Hi Lo _) as [Hi1 Lo1] eqn:Hcreate.
    injection Hadj as <-.
    assert (Hg : grown Lo Lo1 ∧ grown Hi Hi1).
    { unfold createInterval in Hcreate.
      destruct (order Hi >? order Lo); injection Hcreate as <- <-;
        auto with tuning. }
    destruct Hg as [HgL HgH]. split.
    + eapply Forall2_grown_trans.
      * eapply Forall2_grown_insert; [exact HLo |].
        eapply grown_trans; [exact HgL | apply grown_updateOrder].
      * eapply Forall2_grown_insert;
          [rewrite list_lookup_insert_ne by exact Hne; exact HHi |].
        eapply grown_trans; [exact HgH | apply grown_updateOrder].
    + intros k Hk1 Hk2.
      rewrite !list_lookup_insert_ne by congruence. reflexivity.
  - injection Hadj as <-. split; [apply Forall2_grown_refl | reflexivity].
Qed.

(** The low note of a pair is not moved when the high note's order is not
    above its own. *)
Lemma adjustPair_low_kept justSystem lo hi noteArr noteArr' Lo Hi :
  adjustPair justSystem lo hi noteArr = Some noteArr' → lo ≠ hi →
  noteArr !! lo = Some Lo → noteArr !! hi = Some Hi →
  order Hi ≤ order Lo →
  ∃ Lo', noteArr' !! lo = Some Lo' ∧ justPitch Lo' = justPitch Lo
         ∧ order Lo ≤ order Lo'.
Proof.
  intros Hadj Hne HLo HHi Hle. unfold adjustPair in Hadj.
  rewrite HLo, HHi in Hadj. simpl in Hadj.
  destruct (justSystemAt justSystem _) as [e |]; [| discriminate].
  simpl in Hadj.
  destruct ((JustObj.order e >? order Hi) || (JustObj.order e >? order Lo)).
  - unfold createInterval in Hadj.
    assert (Hgt : (order Hi >? order Lo) = false)
      by (rewrite Z.gtb_ltb; apply Z.ltb_ge; lia).
    rewrite Hgt in Hadj. injection Hadj as <-.
    eexists. split.
    { rewrite list_lookup_insert_ne by congruence.
      apply list_lookup_insert_eq. eapply lookup_lt_Some; eauto. }
    rewrite updateOrder_max. simpl. split; [reflexivity | lia].
  - injection Hadj as <-. exists Lo. split; [exact HLo |].
    split; [reflexivity | lia].
Qed.

Lemma forSteps_pitches justSystem lo :
  ∀ n h noteArr noteArr', (lo < h)%nat →
    forSteps n h (adjustPair justSystem lo) noteArr = Some noteArr' →
    Forall2 grown noteArr noteArr'
    ∧ ∀ k, k ≠ lo → (k < h)%nat → noteArr' !! k = noteArr !! k.
Proof.
  induction n as [| n IH]; intros h noteArr noteArr' Hlt Hrun; simpl in Hrun.
  - injection Hrun as <-. split; [apply Forall2_grown_refl | reflexivity].
  - destruct (adjustPair justSystem lo h noteArr) as [arr1 |] eqn:Hadj;
      [| discriminate].
    simpl in Hrun.
    destruct (adjustPair_writes _ _ _ _ _ Hadj) as [Hg1 Hf1]; [lia |].
    destruct (IH (S h) arr1 noteArr') as [Hg2 Hf2]; [lia | exact Hrun |].
    split; [eapply Forall2_grown_trans; eauto |].
    intros k Hk1 Hk2. rewrite Hf2 by lia. apply Hf1; lia.
Qed.

(** The row of the first note: the notes still to come have order -1, so it
    is always the high note that moves. *)
Lemma forSteps_first_row justSystem :
  ∀ n h noteArr noteArr' Lo, (1 ≤ h)%nat →
    noteArr !! 0%nat = Some Lo → -1 ≤ order Lo →
    (∀ j N, (h ≤ j)%nat → noteArr !! j = Some N → order N = -1) →
    forSteps n h (adjustPair justSystem 0) noteArr = Some noteArr' →
    ∃ Lo', noteArr' !! 0%nat = Some Lo' ∧ justPitch Lo' = justPitch Lo.
Proof.
  induction n as [| n IH]; intros h noteArr noteArr' Lo Hh HLo Hord Hrest Hrun;
    simpl in Hrun.
  - injection Hrun as <-. eauto.
  - destruct (adjustPair justSystem 0 h noteArr) as [arr1 |] eqn:Hadj;
      [| discriminate].
    simpl in Hrun.
    destruct (noteArr !! h) as [Hi |] eqn:HHi.
    2:{ unfold adjustPair in Hadj. rewrite HLo, HHi in Hadj. discriminate. }
    pose proof (Hrest h Hi ltac:(lia) HHi) as HoHi.
    destruct (adjustPair_low_kept _ _ _ _ _ Lo Hi Hadj) as (Lo1 & HLo1 & Hj & Ho);
      [lia | exact HLo | exact HHi | lia |].
    destruct (adjustPair_writes _ _ _ _ _ Hadj) as [_ Hf]; [lia |].
    destruct (IH (S h) arr1 noteArr' Lo1) as (Lo' & HLo' & Hj');
      [lia | exact HLo1 | lia | | exact Hrun |].
    { intros j N Hj1 HN. rewrite Hf in HN by lia. eapply Hrest; [| exact HN]. lia. }
    exists Lo'. split; [exact HLo' | congruence].
Qed.

Lemma forSteps_later_rows justSystem numNotes :
  ∀ n lo noteArr noteArr', (1 ≤ lo)%nat →
    forSteps n lo
      (λ lo, forLoop (lo + 1) numNotes (adjustPair justSystem lo)) noteArr
    = Some noteArr' →
    noteArr' !! 0%nat = noteArr !! 0%nat.
Proof.
  induction n as [| n IH]; intros lo noteArr noteArr' Hlo Hrun; simpl in Hrun.
  - injection Hrun as <-. reflexivity.
  - destruct (forLoop (lo + 1) numNotes (adjustPair justSystem lo) noteArr)
      as [arr1 |] eqn:Hrow; [| discriminate].
    simpl in Hrun. unfold forLoop in Hrow.
    destruct (forSteps_pitches justSystem lo _ (lo + 1)%nat _ _
                ltac:(lia) Hrow) as [_ Hf].
    rewrite (IH (S lo) arr1 noteArr') by (lia || exact Hrun).
    apply Hf; lia.
Qed.

(** On an array that has just been reset, [adjustPitches] never moves the
    first note. *)
Lemma adjustPitches_first_kept justSystem noteArr noteArr' Lo :
  Forall (λ N, order N = -1) noteArr → noteArr !! 0%nat = Some Lo →
  adjustPitches justSystem noteArr = Some noteArr' →
  ∃ Lo', noteArr' !! 0%nat = Some Lo' ∧ justPitch Lo' = justPitch Lo.
Proof.
  intros Hreset HLo Hadj. unfold adjustPitches in Hadj. cbv zeta in Hadj.
  unfold forLoop at 1 in Hadj. rewrite Nat.sub_0_r in Hadj.
  destruct (length noteArr - 1)%nat as [| m] eqn:Hm; simpl in Hadj.
  - injection Hadj as <-. eauto.
  - destruct (forLoop 1 (length noteArr) (adjustPair justSystem 0) noteArr)
      as [arr1 |] eqn:Hrow; [| discriminate].
    simpl in Hadj. unfold forLoop in Hrow.
    assert (Hall : ∀ j N, noteArr !! j = Some N → order N = -1).
    { intros j N HN. rewrite List.Forall_forall in Hreset.
      apply Hreset, list_elem_of_In, list_elem_of_lookup. eauto. }
    destruct (forSteps_first_row justSystem (length noteArr - 1) 1%nat
                noteArr arr1 Lo)
      as (Lo1 & HLo1 & Hj1);
      [simpl; lia | exact HLo | rewrite (Hall _ _ HLo); lia
      | intros j N _ HN; eapply Hall; exact HN | exact Hrow |].
    rewrite <- (forSteps_later_rows justSystem (length noteArr) m 1%nat
                  arr1 noteArr' ltac:(lia) Hadj) in HLo1.
    eauto.
Qed.

Lemma passInput_reset_form held :
  Forall (λ N, order N = -1 ∧ justPitch N = inject_Z (equalPitch N))
         (passInput held).
Proof.
  rewrite <- passInput_reset. rewrite List.Forall_forall.
  intros N HN. apply in_map_iff in HN as (M & <- & _). split; reflexivity.
Qed.

(** The comment on [meanMode]: "when false, the lowest pitch is always
    presented in its 12TET value".  After a pass without mean-centering the
    first note of the array, which no other note is below, has its
    [justPitch] at its [equalPitch]. *)
Theorem justify_fixed_lowest :
  ∀ st st1 N, length (justSystem st) = 12%nat → meanMode st = false →
    justify st = Some st1 → heldNotes st1 !! 0%nat = Some N →
    justPitch N = inject_Z (equalPitch N)
    ∧ Forall (λ M, equalPitch N ≤ equalPitch M) (heldNotes st1).
Proof.
  intros st st1 N Hlen Hmean Hj HN.
  destruct (justify_settled st st1 Hlen Hj) as (Hasc & _).
  destruct (justify_pass st Hlen) as (noteArr & Hadj & Hg & _ & Hj').
  rewrite Hj' in Hj. injection Hj as <-. simpl in *.
  rewrite Hmean in *. unfold passOutput in *. simpl in *.
  split.
  - destruct (Forall2_lookup_r _ _ _ _ _ Hg HN) as (Lo & HLo & HgLo).
    destruct (adjustPitches_first_kept (justSystem st)
                (passInput (heldNotes st)) noteArr Lo)
      as (Lo' & HLo' & Hjust); [| exact HLo | exact Hadj |].
    { eapply List.Forall_impl; [| apply passInput_reset_form].
      intros M [HM _]. exact HM. }
    rewrite HN in HLo'. injection HLo' as <-.
    pose proof (passInput_reset_form (heldNotes st)) as Hform.
    rewrite List.Forall_forall in Hform.
    destruct (Hform Lo) as [_ HjLo];
      [apply list_elem_of_In, list_elem_of_lookup; eauto |].
    destruct HgLo as (Hp & _). rewrite Hjust, HjLo, Hp. reflexivity.
  - destruct noteArr as [| N0 rest]; [discriminate |].
    simpl in HN. injection HN as ->.
    apply ascending_cons in Hasc as [_ Hall].
    constructor; [lia | exact Hall].
Qed.

Lemma justify_fixed_lowest_witness :
  length (justSystem (set_meanMode false thirdTuned)) = 12%nat
  ∧ meanMode (set_meanMode false thirdTuned) = false
  ∧ ∃ st1 N, justify (set_meanMode false thirdTuned) = Some st1
      ∧ heldNotes st1 !! 0%nat = Some N
      ∧ justPitch N = inject_Z (equalPitch N).
Proof.
  split; [reflexivity |]. split; [reflexivity |].
  eexists. eexists.
  assert (Hj : justify (set_meanMode false thirdTuned)
               = Some (default loaded (justify (set_meanMode false thirdTuned))))
    by (vm_compute; reflexivity).
  split; [exact Hj |].
  assert (HN : heldNotes (default loaded (justify (set_meanMode false thirdTuned)))
               !! 0%nat
               = Some (default (newNote 0 0)
                         (heldNotes (default loaded
                            (justify (set_meanMode false thirdTuned))) !! 0%nat)))
    by (vm_compute; reflexivity).
  split; [exact HN |].
  apply (justify_fixed_lowest (set_meanMode false thirdTuned) _ _
           eq_refl eq_refl Hj HN).
Defined.

(** On the ascending array of a pass, with a table of twelve entries,
    [adjustPitches] does not throw; it keeps the length of the array and the
    [equalPitch] and [velocity] of every note, and never lowers an [order]. *)
Theorem adjustPitches_keeps_notes :
  ∀ justSystem noteArr,
    length justSystem = 12%nat → ascending noteArr →
    ∃ noteArr', adjustPitches justSystem noteArr = Some noteArr'
      ∧ length noteArr' = length noteArr
      ∧ map equalPitch noteArr' = map equalPitch noteArr
      ∧ map velocity noteArr' = map velocity noteArr
      ∧ Forall2 (λ N N', order N ≤ order N') noteArr noteArr'.
Proof.
  intros justSystem noteArr Hlen Hasc.
  destruct (adjustPitches_total justSystem Hlen noteArr Hasc)
    as (noteArr' & Hadj & Hg & _).
  exists noteArr'. split; [exact Hadj |].
  split; [symmetry; apply (Forall2_length Hg) |].
  split; [apply Forall2_grown_pitches; exact Hg |].
  split.
  - clear Hadj Hasc. induction Hg as [| a b l l' (_ & Hv & _) _ IH]; simpl;
      congruence.
  - clear Hadj Hasc. induction Hg as [| a b l l' (_ & _ & Ho) _ IH];
      constructor; auto.
Qed.

Lemma adjustPitches_keeps_notes_witness :
  length fiveLimit = 12%nat ∧ ascending majorTriad
  ∧ ∃ noteArr', adjustPitches fiveLimit majorTriad = Some noteArr'
      ∧ map equalPitch noteArr' = map equalPitch majorTriad.
Proof.
  assert (Hasc : ascending majorTriad)
    by (unfold ascending; simpl; repeat constructor; lia).
  split; [reflexivity |]. split; [exact Hasc |].
  destruct (adjustPitches_keeps_notes fiveLimit majorTriad eq_refl Hasc)
    as (noteArr' & H1 & _ & H2 & _).
  exists noteArr'. auto.
Defined.

Lemma visit_adjustPair_throws justSystem lo hi a b :
  Z.rem (b - a) 12 < 0 →
  ∀ ps noteArr,
    In (lo, hi) ps → (∀ p, In p ps → p.1 ≠ p.2) →
    map equalPitch noteArr !! lo = Some a →
    map equalPitch noteArr !! hi = Some b →
    visit (λ p, adjustPair justSystem p.1 p.2) ps noteArr = None.
Proof.
  intros Hrem. induction ps as [| [l h] ps IH]; intros noteArr Hin Hne Ha Hb;
    [destruct Hin |].
  simpl. destruct (adjustPair justSystem l h noteArr) as [arr1 |] eqn:Hadj;
    [| reflexivity].
  simpl. destruct Hin as [Heq | Hin].
  - injection Heq as -> ->. exfalso.
    change (map equalPitch noteArr) with (equalPitch <$> noteArr) in Ha, Hb.
    rewrite list_lookup_fmap in Ha, Hb.
    unfold adjustPair in Hadj.
    destruct (noteArr !! lo) as [Lo |]; [| discriminate].
    destruct (noteArr !! hi) as [Hi |]; [| discriminate].
    simpl in *. injection Ha as <-. injection Hb as <-.
    unfold justSystemAt in Hadj.
    replace (Z.rem (equalPitch Hi - equalPitch Lo) 12 <? 0) with true in Hadj
      by (symmetry; apply Z.ltb_lt; exact Hrem).
    discriminate.
  - destruct (adjustPair_writes _ _ _ _ _ Hadj) as [Hg _];
      [apply (Hne (l, h)); left; reflexivity |].
    apply IH; [exact Hin | intros p Hp; apply Hne; right; exact Hp | | ];
      rewrite (Forall2_grown_pitches _ _ Hg); assumption.
Qed.

(** [adjustPitches] needs the sorted array its comment asks for: when some
    note is followed, anywhere later in the array, by a note whose pitch
    lies below it by other than whole octaves, the remainder
    [interval % 12] is negative, [justSystem] has no such entry, and the call
    throws. *)
Theorem adjustPitches_unsorted_throws :
  ∀ justSystem noteArr lo hi Lo Hi,
    (lo < hi)%nat → noteArr !! lo = Some Lo → noteArr !! hi = Some Hi →
    Z.rem (equalPitch Hi - equalPitch Lo) 12 < 0 →
    adjustPitches justSystem noteArr = None.
Proof.
  intros justSystem noteArr lo hi Lo Hi Hlt HLo HHi Hrem.
  rewrite adjustPitches_visit.
  apply (visit_adjustPair_throws justSystem lo hi
           (equalPitch Lo) (equalPitch Hi) Hrem).
  - apply visitOrder_spec. split; [exact Hlt |]. eapply lookup_lt_Some; eauto.
  - intros [l h] Hp. apply visitOrder_spec in Hp. simpl. lia.
  - change (map equalPitch noteArr) with (equalPitch <$> noteArr).
    rewrite list_lookup_fmap, HLo. reflexivity.
  - change (map equalPitch noteArr) with (equalPitch <$> noteArr).
    rewrite list_lookup_fmap, HHi. reflexivity.
Qed.

Lemma adjustPitches_unsorted_throws_witness :
  (0 < 1)%nat ∧ Z.rem (60 - 64) 12 < 0
  ∧ adjustPitches fiveLimit [newNote 64 100; newNote 60 100] = None.
Proof.
  split; [lia |]. split; [reflexivity |].
  apply (adjustPitches_unsorted_throws fiveLimit
           [newNote 64 100; newNote 60 100] 0 1
           (newNote 64 100) (newNote 60 100));
    [lia | reflexivity | reflexivity | reflexivity].
Defined.

(** ** Note events *)

(** The held notes and the configuration after a note event. *)
Lemma noteIn_heldNotes pitch velocity st :
  length (justSystem st) = 12%nat →
  ∃ noteArr st1,
    adjustPitches (justSystem st)
      (passInput (noteHandler pitch velocity (heldNotes st))) = Some noteArr
    ∧ Forall2 grown (passInput (noteHandler pitch velocity (heldNotes st)))
                    noteArr
    ∧ noteIn pitch velocity st = Some st1
    ∧ heldNotes st1 = passOutput (meanMode st) noteArr
    ∧ justSystem st1 = justSystem st ∧ meanMode st1 = meanMode st
    ∧ intensity st1 = intensity st ∧ console st1 = console st.
Proof.
  intros Hlen.
  destruct (noteIn_pass pitch velocity st Hlen) as (sA & Hj & Hin & _).
  destruct (justify_pass
              (set_heldNotes (noteHandler pitch velocity (heldNotes st))
                 (noteCtrlOut pitch velocity st)) Hlen)
    as (noteArr & Hadj & Hg & _ & Hj').
  rewrite Hj' in Hj. injection Hj as <-. simpl in *.
  exists noteArr. eexists. split; [exact Hadj |]. split; [exact Hg |].
  split; [exact Hin |]. rewrite allNoteMsgOut_outlet. simpl. auto.
Qed.

(** A note-on adds one note whatever is held already: afterwards the held
    pitches are the ones held before and the new pitch, once more if it was
    held. *)
Theorem noteIn_on_adds :
  ∀ pitch velocity st,
    length (justSystem st) = 12%nat → velocity > 0 →
    ∃ st1, noteIn pitch velocity st = Some st1
      ∧ Permutation (map equalPitch (heldNotes st1))
                    (pitch :: map equalPitch (heldNotes st))
      ∧ length (heldNotes st1) = S (length (heldNotes st)).
Proof.
  intros pitch velocity st Hlen Hv.
  destruct (noteIn_heldNotes pitch velocity st Hlen)
    as (noteArr & st1 & _ & Hg & Hin & Hheld & _).
  exists st1. split; [exact Hin |].
  assert (Hperm : Permutation (map equalPitch (heldNotes st1))
                    (pitch :: map equalPitch (heldNotes st))).
  { rewrite Hheld.
    rewrite (Forall2_grown_pitches _ _
               (Forall2_grown_trans _ _ _ Hg (passOutput_grown _ _))).
    unfold passInput. rewrite (sortPitchesAscending_perm _).
    unfold resetJustPitches. rewrite map_map. simpl.
    unfold noteHandler. gtb_is velocity 0 true.
    unfold addNote. rewrite map_app. simpl.
    rewrite Permutation_app_comm. reflexivity. }
  split; [exact Hperm |].
  apply Permutation_length in Hperm. simpl in Hperm.
  rewrite !length_map in Hperm. exact Hperm.
Qed.

Lemma noteIn_on_adds_witness :
  length (justSystem thirdTuned) = 12%nat ∧ 100 > 0
  ∧ ∃ st1, noteIn 64 100 thirdTuned = Some st1
      ∧ Permutation (map equalPitch (heldNotes st1))
                    (64 :: map equalPitch (heldNotes thirdTuned))
      ∧ length (heldNotes st1) = S (length (heldNotes thirdTuned)).
Proof.
  split; [reflexivity |]. split; [lia |].
  apply (noteIn_on_adds 64 100 thirdTuned); [reflexivity | lia].
Defined.

(** A note that is held alone after a pass sits at its equal-tempered pitch,
    so its bend is zero at every intensity, whatever the table. *)
Theorem justify_single_note :
  ∀ st st1 N, length (justSystem st) = 12%nat →
    justify st = Some st1 → heldNotes st1 = [N] →
    justPitch N = inject_Z (equalPitch N) ∧ ∀ i, (bend i N == 0)%Q.
Proof.
  intros st st1 N Hlen Hj Hheld.
  destruct (justify_pass st Hlen) as (noteArr & Hadj & Hg & _ & Hj').
  rewrite Hj' in Hj. injection Hj as <-. simpl in Hheld.
  pose proof (Forall2_length (passOutput_grown (meanMode st) noteArr)) as Hl1.
  pose proof (Forall2_length Hg) as Hl2.
  rewrite Hheld in Hl1. rewrite passInput_length in Hl2. simpl in Hl1.
  destruct (heldNotes st) as [| M [| M' rest]] eqn:Hst;
    simpl in Hl2; try lia.
  vm_compute in Hadj. injection Hadj as <-.
  unfold passOutput in Hheld. simpl in Hheld. rewrite andb_false_r in Hheld.
  injection Hheld as <-.
  split; [reflexivity |]. intros i. unfold bend, inject_Z. simpl. ring.
Qed.

Lemma justify_single_note_witness :
  length (justSystem (set_heldNotes [newNote 60 100] loaded)) = 12%nat
  ∧ justify (set_heldNotes [newNote 60 100] loaded)
    = Some (set_heldNotes [newNote 60 100] loaded)
  ∧ justPitch (newNote 60 100) = inject_Z (equalPitch (newNote 60 100)).
Proof.
  split; [reflexivity |]. split; [reflexivity |].
  apply (justify_single_note (set_heldNotes [newNote 60 100] loaded)
           (set_heldNotes [newNote 60 100] loaded) (newNote 60 100));
    reflexivity.
Defined.

(** ** A note played and released *)

Lemma otherPitches_absent pitch held :
  Forall (λ N, equalPitch N ≠ pitch) held → otherPitches pitch held = held.
Proof.
  induction 1 as [| M l HM _ IH]; [reflexivity |].
  unfold otherPitches in *. simpl.
  replace (equalPitch M =? pitch) with false
    by (symmetry; apply Z.eqb_neq; exact HM).
  simpl. congruence.
Qed.

Lemma heldCount_zero pitch held :
  heldCount pitch held = 0%nat → Forall (λ N, equalPitch N ≠ pitch) held.
Proof.
  unfold heldCount. induction held as [| M l IH]; intros H; [constructor |].
  simpl in H. destruct (equalPitch M =? pitch) eqn:HM; [discriminate |].
  apply Z.eqb_neq in HM. constructor; auto.
Qed.

Lemma heldCount_count_occ pitch held :
  heldCount pitch held = count_occ Z.eq_dec (map equalPitch held) pitch.
Proof.
  unfold heldCount. induction held as [| M l IH]; [reflexivity |].
  simpl. destruct (Z.eq_dec (equalPitch M) pitch) as [He | He].
  - rewrite He, Z.eqb_refl. simpl. congruence.
  - replace (equalPitch M =? pitch) with false
      by (symmetry; apply Z.eqb_neq; exact He).
    exact IH.
Qed.

(** A note-off of a pitch that is held once removes that note and keeps the
    others. *)
Lemma noteOffScan_once pitch held :
  (heldCount pitch held ≤ 1)%nat →
  noteOffScan pitch held = otherPitches pitch held.
Proof.
  induction held as [| N l IH]; intros Hc; [reflexivity |].
  unfold heldCount in Hc. simpl in Hc.
  unfold otherPitches. simpl. rewrite (Z.eqb_sym pitch).
  destruct (equalPitch N =? pitch) eqn:HN; simpl in *.
  - assert (Habs : Forall (λ M, equalPitch M ≠ pitch) l)
      by (apply heldCount_zero; unfold heldCount; lia).
    fold (otherPitches pitch l). rewrite (otherPitches_absent _ _ Habs).
    destruct l as [| M l']; [reflexivity |].
    inversion Habs as [| ? ? HM Habs']; subst.
    rewrite (noteOffScan_absent _ _ Habs'). reflexivity.
  - fold (otherPitches pitch l). rewrite <- IH by exact Hc. reflexivity.
Qed.

Lemma otherPitches_insertNote pitch a l :
  ascending l →
  otherPitches pitch (insertNote a l)
  = if negb (equalPitch a =? pitch) then insertNote a (otherPitches pitch l)
    else otherPitches pitch l.
Proof.
  assert (Hcons : ∀ b k, otherPitches pitch (b :: k)
                  = if negb (equalPitch b =? pitch)
                    then b :: otherPitches pitch k
                    else otherPitches pitch k) by reflexivity.
  induction l as [| b l IH]; intros Hasc.
  - unfold otherPitches. simpl.
    destruct (negb (equalPitch a =? pitch)); reflexivity.
  - apply ascending_cons in Hasc as [Hl Hall]. simpl insertNote at 1.
    destruct (equalPitch a - equalPitch b <=? 0) eqn:Hab.
    + apply Z.leb_le in Hab. rewrite Hcons.
      destruct (negb (equalPitch a =? pitch)); [| reflexivity].
      assert (Hhead : ∀ k, Forall (λ c, equalPitch a ≤ equalPitch c) k →
                           insertNote a k = a :: k).
      { intros [| c k] Hk; [reflexivity |]. simpl.
        inversion Hk; subst.
        replace (equalPitch a - equalPitch c <=? 0) with true
          by (symmetry; apply Z.leb_le; lia).
        reflexivity. }
      rewrite Hhead; [reflexivity |].
      rewrite List.Forall_forall. intros c Hc.
      unfold otherPitches in Hc. apply filter_In in Hc as [Hc _].
      destruct Hc as [<- | Hc]; [lia |].
      rewrite List.Forall_forall in Hall. specialize (Hall c Hc). lia.
    + rewrite Hcons, (IH Hl), (Hcons b l).
      destruct (negb (equalPitch a =? pitch)),
               (negb (equalPitch b =? pitch)); try reflexivity.
      simpl. rewrite Hab. reflexivity.
Qed.

Lemma otherPitches_sort pitch l :
  otherPitches pitch (sortPitchesAscending l)
  = sortPitchesAscending (otherPitches pitch l).
Proof.
  induction l as [| a l IH]; [reflexivity |].
  simpl sortPitchesAscending at 1.
  rewrite otherPitches_insertNote by apply sortPitchesAscending_ascending.
  unfold otherPitches at 3. simpl.
  destruct (negb (equalPitch a =? pitch)); simpl; rewrite IH; reflexivity.
Qed.

Lemma otherPitches_grown pitch l l' :
  Forall2 grown l l' →
  Forall2 grown (otherPitches pitch l) (otherPitches pitch l').
Proof.
  induction 1 as [| a b l l' Hab _ IH]; [constructor |].
  unfold otherPitches in *. simpl.
  destruct Hab as (Hp & Hv & Ho). rewrite Hp.
  destruct (negb (equalPitch a =? pitch)); [| exact IH].
  constructor; [unfold grown; auto | exact IH].
Qed.

Lemma otherPitches_reset pitch l :
  otherPitches pitch (map resetNote l) = map resetNote (otherPitches pitch l).
Proof.
  induction l as [| a l IH]; [reflexivity |].
  unfold otherPitches in *. simpl.
  destruct (negb (equalPitch a =? pitch)); simpl; rewrite IH; reflexivity.
Qed.

(** The pass input after the release is the pass input before the note was
    played. *)
Lemma passInput_released pitch velocity held noteArr :
  Forall (λ N, equalPitch N ≠ pitch) held →
  Forall2 grown (passInput (held ++ [newNote pitch velocity])) noteArr →
  passInput (otherPitches pitch noteArr) = passInput held.
Proof.
  intros Habs Hg.
  unfold passInput at 1. unfold resetJustPitches.
  rewrite (Forall2_grown_reset _ _ (otherPitches_grown pitch _ _ Hg)).
  rewrite <- otherPitches_reset, passInput_reset.
  unfold passInput at 1. rewrite otherPitches_sort.
  unfold resetJustPitches. rewrite otherPitches_reset.
  assert (Hother : otherPitches pitch (held ++ [newNote pitch velocity]) = held).
  { unfold otherPitches. rewrite filter_app. simpl.
    rewrite Z.eqb_refl. simpl. rewrite app_nil_r.
    apply otherPitches_absent, Habs. }
  rewrite Hother.
  apply (sortPitchesAscending_id (passInput held)), passInput_ascending.
Qed.

(** Playing a pitch that is not held and releasing it again restores the
    Active Note Set: every held note is back with the [justPitch] and
    [order] it had, in the same array order, and the configuration is as it
    was.  The state before is one that a pass has left. *)
Theorem noteIn_on_off_restores :
  ∀ pitch velocity velocity' st,
    length (justSystem st) = 12%nat → justify st = Some st →
    Forall (λ N, equalPitch N ≠ pitch) (heldNotes st) →
    velocity > 0 → velocity' ≤ 0 →
    ∃ st1 st2,
      noteIn pitch velocity st = Some st1
      ∧ noteIn pitch velocity' st1 = Some st2
      ∧ heldNotes st2 = heldNotes st
      ∧ justSystem st2 = justSystem st ∧ meanMode st2 = meanMode st
      ∧ intensity st2 = intensity st.
Proof.
  intros pitch velocity velocity' st Hlen Hfix Habs Hon Hoff.
  destruct (noteIn_heldNotes pitch velocity st Hlen)
    as (arr1 & st1 & _ & Hg1 & Hin1 & Hheld1 & Hjs1 & Hm1 & Hi1 & _).
  assert (Hlen1 : length (justSystem st1) = 12%nat) by (rewrite Hjs1; exact Hlen).
  destruct (noteIn_heldNotes pitch velocity' st1 Hlen1)
    as (arr2 & st2 & Hadj2 & _ & Hin2 & Hheld2 & Hjs2 & Hm2 & Hi2 & _).
  exists st1, st2. split; [exact Hin1 |]. split; [exact Hin2 |].
  assert (Hon' : noteHandler pitch velocity (heldNotes st)
                 = heldNotes st ++ [newNote pitch velocity]).
  { unfold noteHandler. gtb_is velocity 0 true. reflexivity. }
  rewrite Hon' in Hg1.
  assert (Hg1' : Forall2 grown
                   (passInput (heldNotes st ++ [newNote pitch velocity]))
                   (heldNotes st1)).
  { rewrite Hheld1. eapply Forall2_grown_trans;
      [exact Hg1 | apply passOutput_grown]. }
  assert (Hoff' : noteHandler pitch velocity' (heldNotes st1)
                  = otherPitches pitch (heldNotes st1)).
  { rewrite noteHandler_off by exact Hoff. apply noteOffScan_once.
    rewrite heldCount_count_occ, (Forall2_grown_pitches _ _ Hg1').
    assert (Hperm : Permutation
                      (map equalPitch
                         (passInput (heldNotes st ++ [newNote pitch velocity])))
                      (pitch :: map equalPitch (heldNotes st))).
    { unfold passInput. rewrite (sortPitchesAscending_perm _).
      unfold resetJustPitches. rewrite map_map, map_app. simpl.
      rewrite Permutation_app_comm. reflexivity. }
    rewrite (proj1 (Permutation_count_occ Z.eq_dec _ _) Hperm).
    simpl. destruct (Z.eq_dec pitch pitch) as [_ | Hne]; [| congruence].
    rewrite <- heldCount_count_occ.
    assert (Hz : heldCount pitch (heldNotes st) = 0%nat).
    { unfold heldCount.
      clear -Habs. induction Habs as [| M l HM _ IH]; [reflexivity |].
      simpl. replace (equalPitch M =? pitch) with false
        by (symmetry; apply Z.eqb_neq; exact HM).
      exact IH. }
    rewrite Hz. lia. }
  rewrite Hoff', (passInput_released pitch velocity _ _ Habs Hg1'),
          Hjs1 in Hadj2.
  destruct (justify_pass st Hlen) as (arr0 & Hadj0 & _ & _ & Hj0).
  rewrite Hadj0 in Hadj2. injection Hadj2 as <-.
  rewrite Hj0 in Hfix. injection Hfix as Hfix.
  split.
  { rewrite Hheld2, Hm1. rewrite <- Hfix at 2. reflexivity. }
  rewrite Hjs2, Hm2, Hi2. auto.
Qed.

Lemma noteIn_on_off_restores_witness :
  length (justSystem thirdTuned) = 12%nat
  ∧ justify thirdTuned = Some thirdTuned
  ∧ Forall (λ N, equalPitch N ≠ 67) (heldNotes thirdTuned)
  ∧ 100 > 0 ∧ 0 ≤ 0
  ∧ ∃ st1 st2,
      noteIn 67 100 thirdTuned = Some st1 ∧ noteIn 67 0 st1 = Some st2
      ∧ heldNotes st2 = heldNotes thirdTuned.
Proof.
  assert (Hfix : justify thirdTuned = Some thirdTuned)
    by (vm_compute; reflexivity).
  assert (Habs : Forall (λ N, equalPitch N ≠ 67) (heldNotes thirdTuned))
    by (repeat constructor; simpl; lia).
  split; [reflexivity |]. split; [exact Hfix |]. split; [exact Habs |].
  split; [lia |]. split; [lia |].
  destruct (noteIn_on_off_restores 67 100 0 thirdTuned eq_refl Hfix Habs)
    as (st1 & st2 & H1 & H2 & H3 & _); [lia | lia |].
  exists st1, st2. auto.
Defined.

(** A note-off of a pitch that is not held, in a state that a pass has left:
    the held notes stay as they are, and the note-control message is sent all
    the same, with the velocity of the event, before the pitch messages of
    the held notes. *)
Theorem noteIn_off_absent :
  ∀ pitch velocity st,
    length (justSystem st) = 12%nat → justify st = Some st →
    Forall (λ N, equalPitch N ≠ pitch) (heldNotes st) → velocity ≤ 0 →
    ∃ st1, noteIn pitch velocity st = Some st1
      ∧ heldNotes st1 = heldNotes st
      ∧ outlet st1
        = outlet st ++ [NoteControl pitch velocity]
          ++ pitchMessages (intensity st) (heldNotes st)
          ++ comparison (intensity st) (heldNotes st) ++ [Done].
Proof.
  intros pitch velocity st Hlen Hfix Habs Hv.
  destruct (noteIn_pass pitch velocity st Hlen) as (st1 & Hj & Hin & Hi & Ho).
  rewrite (noteHandler_off pitch velocity _ Hv),
          (noteOffScan_absent _ _ Habs) in Hj.
  destruct (justify_pass st Hlen) as (arr0 & Hadj0 & _ & _ & Hj0).
  destruct (justify_pass (set_heldNotes (heldNotes st)
                            (noteCtrlOut pitch velocity st)) Hlen)
    as (arr1 & Hadj1 & _ & _ & Hj1).
  simpl in Hadj1. rewrite Hadj0 in Hadj1. injection Hadj1 as <-.
  rewrite Hj1 in Hj. injection Hj as <-.
  rewrite Hj0 in Hfix. injection Hfix as Hfix.
  assert (Hheld : passOutput (meanMode st) arr0 = heldNotes st)
    by (rewrite <- Hfix at 2; reflexivity).
  eexists. split; [exact Hin |].
  rewrite allNoteMsgOut_outlet. simpl. rewrite Hheld.
  split; [reflexivity |]. rewrite <- !app_assoc. reflexivity.
Qed.

Lemma noteIn_off_absent_witness :
  length (justSystem thirdTuned) = 12%nat
  ∧ justify thirdTuned = Some thirdTuned
  ∧ Forall (λ N, equalPitch N ≠ 61) (heldNotes thirdTuned) ∧ 0 ≤ 0
  ∧ ∃ st1, noteIn 61 0 thirdTuned = Some st1
      ∧ heldNotes st1 = heldNotes thirdTuned.
Proof.
  assert (Hfix : justify thirdTuned = Some thirdTuned)
    by (vm_compute; reflexivity).
  assert (Habs : Forall (λ N, equalPitch N ≠ 61) (heldNotes thirdTuned))
    by (repeat constructor; simpl; lia).
  split; [reflexivity |]. split; [exact Hfix |]. split; [exact Habs |].
  split; [lia |].
  destruct (noteIn_off_absent 61 0 thirdTuned eq_refl Hfix Habs)
    as (st1 & H1 & H2 & _); [lia |].
  exists st1. auto.
Defined.

(** ** All notes off *)

(** [allNotesOff] sends one note-control message of velocity 0 for every held
    note, in array order, and empties the array; the configuration and the
    console stay.  A pass that follows does nothing, and so does a second
    [allNotesOff]. *)
Theorem allNotesOff_clears :
  ∀ st,
    heldNotes (allNotesOff st) = []
    ∧ outlet (allNotesOff st)
      = outlet st ++ map (λ N, NoteControl (equalPitch N) 0) (heldNotes st)
    ∧ justSystem (allNotesOff st) = justSystem st
    ∧ meanMode (allNotesOff st) = meanMode st
    ∧ intensity (allNotesOff st) = intensity st
    ∧ console (allNotesOff st) = console st
    ∧ justify (allNotesOff st) = Some (allNotesOff st)
    ∧ allNotesOff (allNotesOff st) = allNotesOff st.
Proof.
  intros st. unfold allNotesOff. rewrite noteCtrlOut_fold. simpl.
  repeat (split; [reflexivity |]). reflexivity.
Qed.

(** ** Selecting a table *)

(** [setLimit] with 5, 7, 11 or 13 works from any state: it selects the
    table of that limit, posts no error and sends nothing, keeps the held
    pitches, the intensity and the mean mode, and leaves the held notes
    tuned to the new table as a pass leaves them, so that selecting the same
    limit again changes nothing. *)
Theorem setLimit_valid :
  ∀ val table st, limitTable val = Some table →
    ∃ st1, setLimit val st = Some st1
      ∧ justSystem st1 = table ∧ In table limits
      ∧ console st1 = console st ∧ outlet st1 = outlet st
      ∧ intensity st1 = intensity st ∧ meanMode st1 = meanMode st
      ∧ Permutation (map equalPitch (heldNotes st1))
                    (map equalPitch (heldNotes st))
      ∧ settled table (heldNotes st1)
      ∧ setLimit val st1 = Some st1.
Proof.
  intros val table st Hval.
  assert (Hcase : In table limits
            ∧ ∀ s, setLimit val s = justify (set_justSystem table s)).
  { unfold limitTable in Hval.
    destruct (val =? 5) eqn:H5;
      [apply Z.eqb_eq in H5; subst; injection Hval as <-;
       split; [unfold limits; simpl; auto | reflexivity] |].
    destruct (val =? 7) eqn:H7;
      [apply Z.eqb_eq in H7; subst; injection Hval as <-;
       split; [unfold limits; simpl; auto | reflexivity] |].
    destruct (val =? 11) eqn:H11;
      [apply Z.eqb_eq in H11; subst; injection Hval as <-;
       split; [unfold limits; simpl; auto | reflexivity] |].
    destruct (val =? 13) eqn:H13;
      [apply Z.eqb_eq in H13; subst; injection Hval as <-;
       split; [unfold limits; simpl; auto | reflexivity] |].
    discriminate. }
  destruct Hcase as [Hin Hset].
  pose proof (limits_length _ Hin) as Hlen.
  destruct (justify_pass (set_justSystem table st) Hlen)
    as (noteArr & _ & _ & _ & Hj).
  destruct (justify_settled (set_justSystem table st) _ Hlen Hj)
    as (_ & Hs & Hjs & Hi & Hm & Ho & Hc & Hperm).
  eexists. split; [rewrite Hset; exact Hj |].
  split; [exact Hjs |]. split; [exact Hin |].
  split; [exact Hc |]. split; [exact Ho |].
  split; [exact Hi |]. split; [exact Hm |].
  split; [exact Hperm |].
  split; [rewrite Hjs in Hs; exact Hs |].
  rewrite Hset.
  pose proof (justify_fixpoint (set_justSystem table st) _ Hlen Hj) as Hfix.
  simpl in *. exact Hfix.
Qed.

Lemma setLimit_valid_witness :
  limitTable 7 = Some sevenLimit
  ∧ ∃ st1, setLimit 7 thirdTuned = Some st1
      ∧ justSystem st1 = sevenLimit ∧ In sevenLimit limits
      ∧ console st1 = console thirdTuned ∧ outlet st1 = outlet thirdTuned.
Proof.
  split; [reflexivity |].
  destruct (setLimit_valid 7 sevenLimit thirdTuned eq_refl)
    as (st1 & H1 & H2 & H3 & H4 & H5 & _).
  exists st1. auto.
Defined.

(** ** The messages of the comparison *)

Lemma setOctaveSlot_lookup offsetArr pitch v k :
  length offsetArr = 12%nat →
  length (setOctaveSlot offsetArr pitch v) = 12%nat
  ∧ setOctaveSlot offsetArr pitch v !! k
    = if Z.rem pitch 12 =? Z.of_nat k then Some v else offsetArr !! k.
Proof.
  intros Hlen. unfold setOctaveSlot.
  pose proof (Z.rem_bound_abs pitch 12 ltac:(lia)) as Hb.
  destruct (Z.rem pitch 12 <? 0) eqn:Hneg.
  - apply Z.ltb_lt in Hneg. split; [exact Hlen |].
    replace (Z.rem pitch 12 =? Z.of_nat k) with false
      by (symmetry; apply Z.eqb_neq; lia).
    reflexivity.
  - apply Z.ltb_ge in Hneg. rewrite length_insert. split; [exact Hlen |].
    destruct (Z.rem pitch 12 =? Z.of_nat k) eqn:Hk.
    + apply Z.eqb_eq in Hk. rewrite Hk, Nat2Z.id.
      apply list_lookup_insert_eq. lia.
    + apply Z.eqb_neq in Hk. apply list_lookup_insert_ne. lia.
Qed.

Lemma octaveSlots_lookup i held :
  length (fold_left (λ arr N, setOctaveSlot arr (equalPitch N) (bend i N))
                    held (replicate 12 0%Q)) = 12%nat
  ∧ ∀ k, (k < 12)%nat →
      fold_left (λ arr N, setOctaveSlot arr (equalPitch N) (bend i N))
                held (replicate 12 0%Q) !! k
      = Some (last (pitchClassBends i k held) 0%Q).
Proof.
  induction held as [| N held [IHl IHk]] using rev_ind.
  - split; [reflexivity |]. intros k Hk.
    cbn [fold_left pitchClassBends List.filter map last].
    apply lookup_replicate_2. exact Hk.
  - rewrite fold_left_app. cbn [fold_left].
    split;
      [apply (proj1 (setOctaveSlot_lookup _ (equalPitch N) (bend i N) 0 IHl)) |].
    intros k Hk.
    rewrite (proj2 (setOctaveSlot_lookup _ (equalPitch N) (bend i N) k IHl)).
    unfold pitchClassBends. rewrite filter_app, map_app. simpl.
    destruct (Z.rem (equalPitch N) 12 =? Z.of_nat k).
    + simpl. rewrite last_last. reflexivity.
    + simpl. rewrite app_nil_r. apply IHk. exact Hk.
Qed.

(** [offsetOctaveOut] always sends twelve slots.  The slot of a remainder
    holds the bend of the last held note, in array order, whose pitch has
    that remainder by 12, and 0 when there is none; a note whose pitch has a
    negative remainder is written to no slot. *)
Theorem offsetOctaveOut_slots :
  ∀ st, ∃ offsetArr,
    offsetOctaveOut st = output (OffsetOctave offsetArr) st
    ∧ length offsetArr = 12%nat
    ∧ ∀ k, (k < 12)%nat →
        offsetArr !! k
        = Some (last (pitchClassBends (intensity st) k (heldNotes st)) 0%Q).
Proof.
  intros st. eexists. split; [reflexivity |].
  apply (octaveSlots_lookup (intensity st) (heldNotes st)).
Qed.

(** One round of output changes nothing but the outlet.  It appends, for
    every held note in array order, one pitch message pairing [equalPitch]
    with [(justPitch - equalPitch) * intensity], and then the four comparison
    messages: [justPitches], [equalPitches], [offsetOctave], [offsetList]. *)
Theorem allNoteMsgOut_appends :
  ∀ st,
    outlet (allNoteMsgOut st)
    = outlet st
      ++ map (λ N, NoteMessage (equalPitch N)
                     ((justPitch N - inject_Z (equalPitch N)) * intensity st)%Q)
             (heldNotes st)
      ++ [ JustPitches
             (map (λ N, ((justPitch N - inject_Z (equalPitch N)) * intensity st
                         + inject_Z (equalPitch N))%Q) (heldNotes st));
           EqualPitches (map equalPitch (heldNotes st));
           OffsetOctave
             (fold_left
                (λ arr N, setOctaveSlot arr (equalPitch N)
                   ((justPitch N - inject_Z (equalPitch N)) * intensity st)%Q)
                (heldNotes st) (replicate 12 0%Q));
           OffsetList
             (map (λ N, ((justPitch N - inject_Z (equalPitch N))
                         * intensity st)%Q) (heldNotes st)) ]
    ∧ length (outlet (allNoteMsgOut st))
      = (length (outlet st) + length (heldNotes st) + 4)%nat
    ∧ heldNotes (allNoteMsgOut st) = heldNotes st
    ∧ justSystem (allNoteMsgOut st) = justSystem st
    ∧ meanMode (allNoteMsgOut st) = meanMode st
    ∧ intensity (allNoteMsgOut st) = intensity st
    ∧ console (allNoteMsgOut st) = console st.
Proof.
  intros st. rewrite allNoteMsgOut_outlet. simpl.
  split; [reflexivity |]. split; [| auto].
  rewrite !length_app. unfold pitchMessages. rewrite length_map. simpl. lia.
Qed.

(** ** What a pass keeps *)

(** A retuning pass returns with the same notes held: up to their order in
    the array and to the two fields it recomputes, [justPitch] and [order],
    the held notes are the ones it was given, and it touches neither the
    configuration nor the outlet nor the console. *)
Theorem justify_keeps_notes :
  ∀ st, length (justSystem st) = 12%nat →
    ∃ st1, justify st = Some st1
      ∧ Permutation (resetJustPitches (heldNotes st1))
                    (resetJustPitches (heldNotes st))
      ∧ justSystem st1 = justSystem st ∧ meanMode st1 = meanMode st
      ∧ intensity st1 = intensity st ∧ outlet st1 = outlet st
      ∧ console st1 = console st.
Proof.
  intros st Hlen.
  destruct (justify_pass st Hlen) as (noteArr & _ & Hg & _ & Hj).
  eexists. split; [exact Hj |]. simpl. split; [| auto].
  unfold resetJustPitches at 1.
  rewrite (Forall2_grown_reset _ _
             (Forall2_grown_trans _ _ _ Hg (passOutput_grown _ _))).
  rewrite passInput_reset. apply sortPitchesAscending_perm.
Qed.

Lemma justify_keeps_notes_witness :
  length (justSystem (set_heldNotes majorTriad loaded)) = 12%nat
  ∧ ∃ st1, justify (set_heldNotes majorTriad loaded) = Some st1
      ∧ Permutation (resetJustPitches (heldNotes st1))
                    (resetJustPitches majorTriad).
Proof.
  split; [reflexivity |].
  destruct (justify_keeps_notes (set_heldNotes majorTriad loaded) eq_refl)
    as (st1 & H1 & H2 & _).
  exists st1. auto.
Defined.

(** ** Every run, again *)

(** From the loaded program no sequence of note events, table and mode
    selections, intensity changes and all-notes-off commands ever throws,
    and after it the selected table is one of the four, the array of held
    notes is ascending and every pair of it is settled. *)
Theorem run_from_loaded :
  ∀ es, ∃ st, run es loaded = Some st
    ∧ In (justSystem st) limits
    ∧ ascending (heldNotes st)
    ∧ settled (justSystem st) (heldNotes st).
Proof.
  intros es.
  destruct (run_wellTuned es loaded loaded_wellTuned) as (st & Hrun & Hw).
  exists st. split; [exact Hrun | exact Hw].
Qed.

(** In every state the program reaches, [setIntensity] stores its argument
    unclamped, keeps every held note as it is, and sends the pitch messages
    with the bends scaled by the new intensity. *)
Theorem setIntensity_anywhere :
  ∀ es val, ∃ st st1,
    run es loaded = Some st ∧ setIntensity val st = Some st1
    ∧ intensity st1 = val ∧ heldNotes st1 = heldNotes st
    ∧ outlet st1 = outlet st ++ pitchMessages val (heldNotes st)
                             ++ comparison val (heldNotes st).
Proof.
  intros es val.
  destruct (run_wellTuned es loaded loaded_wellTuned)
    as (st & Hrun & _ & _ & Hset).
  exists st. unfold setIntensity. simpl.
  rewrite (adjustPitches_settled _ _ Hset). simpl.
  eexists. split; [exact Hrun |]. split; [reflexivity |].
  rewrite allNoteMsgOut_outlet. simpl. auto.
Qed.
